(** * The polynomial feature kernel [vec_poly]

    A shallow embedding of the kernel of the notebook
    "5. Health Outcomes with Linear Regression" (cell "Numba polynomial
    features") and of the cell that sizes its destination, together with the
    properties of the kernel.

    The kernel receives two NumPy arrays and writes into the second one.  An
    array is a shape and a storage order over a flat buffer that lives in a
    heap; two arrays over the same buffer alias.  Element accesses are checked
    against the shape: an access outside it ends the run with [OutOfBounds]
    (the interpreter's IndexError; compiled in nopython mode the access is
    unchecked, which the model does not describe any further). *)

From Stdlib Require Import PrimFloat.
From Stdlib Require SpecFloat FloatOps.
From stdpp Require Import gmap list.

(** ** Arrays *)

(** Storage order of a two-dimensional array: row-major (C) or column-major
    (Fortran), as chosen by [np.asfortranarray] and [order='F']. *)
Inductive order : Set :=
| C_order
| F_order.

(** A two-dimensional array: the buffer holding its elements, its shape and
    its storage order. *)
Record ndarray : Set := mk_ndarray {
  data : nat;
  nrows : nat;
  ncols : nat;
  layout : order
}.

Definition shape (a : ndarray) : nat * nat := (nrows a, ncols a).

(** Position of element [(k, c)] in the flat buffer. *)
Definition flat_index (a : ndarray) (k c : nat) : nat :=
  match layout a with
  | C_order => k * ncols a + c
  | F_order => c * nrows a + k
  end.

(** A one-dimensional strided view, the result of the slice [x[:, i]]. *)
Record view : Set := mk_view {
  vdata : nat;
  vstart : nat;
  vstep : nat;
  vlen : nat
}.

(** The view [a[:, i]]: column [i] over the buffer of [a]. *)
Definition column_view (a : ndarray) (i : nat) : view :=
  {| vdata := data a;
     vstart := flat_index a 0 i;
     vstep := match layout a with C_order => ncols a | F_order => 1 end;
     vlen := nrows a |}.

(** Python's [range(a, b)]. *)
Definition range (a b : nat) : list nat := seq a (b - a).

(** [n_feat = n*(n+1)//2 + n], the number of columns the caller allocates. *)
Definition n_feat (n : nat) : nat := n * (n + 1) / 2 + n.

(** The columns in the words of the specification: for [i] from [0] to [n-1],
    column [i] itself, then for [j] from [i] to [n-1] the product of columns
    [i] and [j]. *)
Inductive feature : Set :=
| Copy (i : nat)
| Prod (i j : nat).

Definition block (n i : nat) : list feature :=
  Copy i :: (Prod i <$> range i n).

Definition columns (n : nat) : list feature :=
  flat_map (block n) (range 0 n).

(** Output column that holds the copy of input column [i], and the one that
    holds the product of input columns [i] and [j], in closed form. *)
Definition copy_index (n i : nat) : nat := i * (2 * n + 3 - i) / 2.

Definition pair_index (n i j : nat) : nat := copy_index n i + 1 + (j - i).

(** Column at which the block of input column [i] starts: the value of
    [feat_idx] when the outer loop reaches [i]. *)
Fixpoint block_start (n i : nat) : nat :=
  match i with
  | 0 => 0
  | S i' => block_start n i' + 1 + (n - i')
  end.

(** Outcome of a run. *)
Inductive outcome (A : Type) : Type :=
| Done (a : A)
| OutOfBounds.

Arguments Done {A} a.
Arguments OutOfBounds {A}.

Section Kernel.

Context {T : Type}.

(** The element type's multiplication. *)
Variable mul : T → T → T.

(** The heap maps a buffer to its elements. *)
Definition exec (A : Type) : Type := gmap nat (list T) → outcome (A * gmap nat (list T)).

Definition ret {A : Type} (a : A) : exec A := λ h, Done (a, h).

Definition bind {A B : Type} (c : exec A) (f : A → exec B) : exec B :=
  λ h, match c h with
       | Done (a, h') => f a h'
       | OutOfBounds => OutOfBounds
       end.

Notation "x <- c ;; k" := (bind c (λ x, k))
  (at level 100, c at next level, right associativity).

(** [a[k, c]] *)
Definition getitem2 (a : ndarray) (k c : nat) : exec T :=
  λ h, if (k <? nrows a) && (c <? ncols a) then
         match h !! data a ≫= (.!! flat_index a k c) with
         | Some v => Done (v, h)
         | None => OutOfBounds
         end
       else OutOfBounds.

(** [a[k, c] = v] *)
Definition setitem2 (a : ndarray) (k c : nat) (v : T) : exec unit :=
  λ h, if (k <? nrows a) && (c <? ncols a) then
         match h !! data a with
         | Some b =>
             if flat_index a k c <? length b
             then Done (tt, <[data a := <[flat_index a k c := v]> b]> h)
             else OutOfBounds
         | None => OutOfBounds
         end
       else OutOfBounds.

(** [a[:, i]] *)
Definition column (a : ndarray) (i : nat) : exec view :=
  λ h, if i <? ncols a then Done (column_view a i, h) else OutOfBounds.

(** [v[k]] *)
Definition getitem1 (v : view) (k : nat) : exec T :=
  λ h, if k <? vlen v then
         match h !! vdata v ≫= (.!! (vstart v + k * vstep v)) with
         | Some e => Done (e, h)
         | None => OutOfBounds
         end
       else OutOfBounds.

(** [for i in its: s = body(i, s)] *)
Fixpoint for_in {S : Type} (its : list nat) (body : nat → S → exec S) (s : S) : exec S :=
  match its with
  | [] => ret s
  | i :: its' => s' <- body i s ;; for_in its' body s'
  end.

(** The kernel. *)
Definition vec_poly (x res : ndarray) : exec unit :=
  let '(m, n) := shape x in
  _ <- for_in (range 0 n) (λ i feat_idx,
         v1 <- column x i ;;
         _ <- for_in (range 0 m) (λ k _,
                e <- getitem1 v1 k ;;
                setitem2 res k feat_idx e) tt ;;
         let feat_idx := feat_idx + 1 in
         for_in (range i n) (λ j feat_idx,
           _ <- for_in (range 0 m) (λ k _,
                  e <- getitem1 v1 k ;;
                  e' <- getitem2 x k j ;;
                  setitem2 res k feat_idx (mul e e')) tt ;;
           ret (feat_idx + 1)) feat_idx) 0 ;;
  ret tt.

(** Reading an element of an array in a heap. *)
Definition entry (h : gmap nat (list T)) (a : ndarray) (k c : nat) : option T :=
  if (k <? nrows a) && (c <? ncols a)
  then h !! data a ≫= (.!! flat_index a k c)
  else None.

(** The rows of an array in a heap. *)
Definition rows (h : gmap nat (list T)) (a : ndarray) : list (list (option T)) :=
  (λ k, entry h a k <$> range 0 (ncols a)) <$> range 0 (nrows a).

(** Column [c] of an array in a heap. *)
Definition col (h : gmap nat (list T)) (a : ndarray) (c : nat) : list (option T) :=
  (λ k, entry h a k c) <$> range 0 (nrows a).

(** The value of a feature in row [k] of [x]. *)
Definition feature_value (h : gmap nat (list T)) (x : ndarray) (k : nat) (f : feature) : option T :=
  match f with
  | Copy i => entry h x k i
  | Prod i j =>
      match entry h x k i, entry h x k j with
      | Some e, Some e' => Some (mul e e')
      | _, _ => None
      end
  end.

(** The array's buffer is in the heap and holds at least its elements. *)
Definition allocated (h : gmap nat (list T)) (a : ndarray) : bool :=
  match h !! data a with
  | Some b => nrows a * ncols a <=? length b
  | None => false
  end.

(** A call as the notebook makes it: input and destination in separate
    buffers, the destination at least [m] by [n_feat]. *)
Definition valid_call (h : gmap nat (list T)) (x res : ndarray) : bool :=
  allocated h x && allocated h res && negb (data x =? data res)
  && (nrows x <=? nrows res) && (n_feat (ncols x) <=? ncols res).

(** The heap after a run, if it completes. *)
Definition run (x res : ndarray) (h : gmap nat (list T)) : option (gmap nat (list T)) :=
  match vec_poly x res h with
  | Done (_, h') => Some h'
  | OutOfBounds => None
  end.

(** The rows of the destination after a run, if it completes. *)
Definition output (x res : ndarray) (h : gmap nat (list T)) : option (list (list (option T))) :=
  (λ h', rows h' res) <$> run x res h.

(** [triple P c Q]: from a heap in [P], [c] completes and ends in [Q]. *)
Definition triple {A : Type} (P : gmap nat (list T) → Prop) (c : exec A)
    (Q : A → gmap nat (list T) → Prop) : Prop :=
  ∀ h, P h → ∃ a h', c h = Done (a, h') ∧ Q a h'.

(** What the kernel is to leave in row [k] of output column [c], for the
    input as it is in [h]. *)
Definition expected (h : gmap nat (list T)) (x : ndarray) (k c : nat) : option T :=
  columns (ncols x) !! c ≫= feature_value h x k.

(** Progress of the kernel: the columns before [cf] are written, and so are
    the first [kp] rows of column [cf]. *)
Definition written (x : ndarray) (cf kp k c : nat) : Prop :=
  k < nrows x ∧ (c < cf ∨ (c = cf ∧ k < kp)).

(** The heap at that point of a run started in [h0]: only the buffer of
    [res] differs, it holds the expected values where the kernel has written
    and its former values elsewhere. *)
Definition filled (h0 : gmap nat (list T)) (x res : ndarray) (cf kp : nat)
    (h : gmap nat (list T)) : Prop :=
  ∃ b br, h0 !! data res = Some br ∧ h = <[data res := b]> h0 ∧
    length b = length br ∧
    (∀ k c, written x cf kp k c →
       b !! flat_index res k c = expected h0 x k c) ∧
    (∀ k c, k < nrows res → c < ncols res → ¬ written x cf kp k c →
       b !! flat_index res k c = br !! flat_index res k c).

(** Two heaps with the same buffers, of the same lengths. *)
Definition same_sizes (h0 h : gmap nat (list T)) : Prop :=
  ∀ l, length <$> h !! l = length <$> h0 !! l.

End Kernel.

(** ** Concrete calls, in binary64 *)

(** The scenario of the specification: [x = [[1,2],[3,4]]], row-major, and a
    zeroed 2 by 5 destination. *)
Definition x22 : ndarray := mk_ndarray 0 2 2 C_order.
Definition res25 : ndarray := mk_ndarray 1 2 5 C_order.
Definition heap22 : gmap nat (list float) :=
  {[ 0 := [1; 2; 3; 4]%float; 1 := replicate 10 0%float ]}.

(** The same values in column-major order, as after [np.asfortranarray], with
    a destination made with [order='F']. *)
Definition x22F : ndarray := mk_ndarray 0 2 2 F_order.
Definition res25F : ndarray := mk_ndarray 1 2 5 F_order.
Definition heap22F : gmap nat (list float) :=
  {[ 0 := [1; 3; 2; 4]%float; 1 := replicate 10 0%float ]}.

(** The scenario with a destination that holds other values beforehand. *)
Definition heap22_used : gmap nat (list float) :=
  {[ 0 := [1; 2; 3; 4]%float; 1 := replicate 10 7%float ]}.

(** A destination of 2 by 6, one column too many for a 2 by 2 input. *)
Definition res26 : ndarray := mk_ndarray 1 2 6 C_order.
Definition heap26 : gmap nat (list float) :=
  {[ 0 := [1; 2; 3; 4]%float; 1 := replicate 12 0%float ]}.

(** An input with no rows. *)
Definition x02 : ndarray := mk_ndarray 0 0 2 C_order.
Definition heap02 : gmap nat (list float) :=
  {[ 0 := []; 1 := replicate 10 0%float ]}.

(** Input and destination over one buffer: [x] is the first two elements of
    the 1 by 5 destination. *)
Definition x12 : ndarray := mk_ndarray 0 1 2 C_order.
Definition res15 : ndarray := mk_ndarray 0 1 5 C_order.
Definition heap_shared : gmap nat (list float) :=
  {[ 0 := [2; 3; 0; 0; 0]%float ]}.

(** ** The cells around the kernel *)

Section Cells.

Context {T : Type}.

(** The zero of [np.zeros]. *)
Variable zero : T.

(** The element type's multiplication. *)
Variable mul : T → T → T.

Notation "x <- c ;; k" := (bind c (λ x, k))
  (at level 100, c at next level, right associativity).

(** [np.zeros((m, n), order=o)]: a new array over a buffer of its own. *)
Definition zeros (m n : nat) (o : order) : exec (T:=T) ndarray :=
  λ h, let l := fresh (dom h) in
       Done (mk_ndarray l m n o, <[l := replicate (m * n) zero]> h).

(** The cells that size the two feature matrices and fill them:
    [m,n=trn.shape], [n_feat = n*(n+1)//2 + n], the two [np.zeros] and the two
    calls of the kernel.  [len_y_test] is [len(y_test)]. *)
Definition feature_cells (trn test : ndarray) (len_y_test : nat) : exec (ndarray * ndarray) :=
  let '(m, n) := shape trn in
  let n_feat := n_feat n in
  trn_feat <- zeros m n_feat F_order ;;
  test_feat <- zeros len_y_test n_feat F_order ;;
  _ <- vec_poly mul trn trn_feat ;;
  _ <- vec_poly mul test test_feat ;;
  ret (trn_feat, test_feat).

(** Every element access of the run of [c] from [h] is inside its array:
    none met an index outside the shape, or a place outside the buffer, which
    is what ends a run with [OutOfBounds]. *)
Definition in_shape {A : Type} (c : exec (T:=T) A) (h : gmap nat (list T)) : Prop :=
  ∃ r, c h = Done r.

End Cells.

(** ** The loops of the speed comparison *)

Section Procs.

Context {T : Type}.

(** The arithmetic of the values the loops compute with, and the constants
    [2], [55], [99] and [.88]. *)
Variables add sub mul : T → T → T.
Variables two fifty_five ninety_nine point88 : T.

(** The zero of [np.zeros], and the conversion to the element type of the
    array ([float32]) that an assignment to an element applies. *)
Variable zero : T.
Variable astype : T → T.

(** The global [nobs]. *)
Variable nobs : nat.

Notation "x <- c ;; k" := (bind c (λ x, k))
  (at level 100, c at next level, right associativity).

(** Position of element [k] of a one-dimensional array in its buffer. *)
Definition offset (v : view) (k : nat) : nat := vstart v + k * vstep v.

(** [v[k] = e] *)
Definition setitem1 (v : view) (k : nat) (e : T) : exec unit :=
  λ h, if k <? vlen v then
         match h !! vdata v with
         | Some b =>
             if offset v k <? length b
             then Done (tt, <[vdata v := <[offset v k := astype e]> b]> h)
             else OutOfBounds
         | None => OutOfBounds
         end
       else OutOfBounds.

(** [np.zeros(n, dtype='float32')] *)
Definition zeros1 (n : nat) : exec (T:=T) view :=
  λ h, let l := fresh (dom h) in
       Done (mk_view l 0 1 n, <[l := replicate n zero]> h).

(** The value the loops compute from [xx[j]] and [yy[j]]. *)
Definition formula (x y : T) : T :=
  let x := sub (mul x two) (mul y fifty_five) in
  let y := add x (mul y two) in
  let z := add (add x y) ninety_nine in
  mul z (sub z point88).

Definition proc_python (xx yy : view) : exec view :=
  zz <- zeros1 nobs ;;
  _ <- for_in (range 0 nobs) (λ j _,
         x <- getitem1 xx j ;;
         y <- getitem1 yy j ;;
         let x := sub (mul x two) (mul y fifty_five) in
         let y := add x (mul y two) in
         let z := add (add x y) ninety_nine in
         let z := mul z (sub z point88) in
         setitem1 zz j z) tt ;;
  ret zz.

Definition proc_numba (xx yy zz : view) : exec view :=
  _ <- for_in (range 0 nobs) (λ j _,
         x <- getitem1 xx j ;;
         y <- getitem1 yy j ;;
         let x := sub (mul x two) (mul y fifty_five) in
         let y := add x (mul y two) in
         let z := add (add x y) ninety_nine in
         let z := mul z (sub z point88) in
         setitem1 zz j z) tt ;;
  ret zz.

(** Reading an element of a one-dimensional array in a heap. *)
Definition item (h : gmap nat (list T)) (v : view) (k : nat) : option T :=
  if k <? vlen v then h !! vdata v ≫= (.!! offset v k) else None.

(** The elements of a one-dimensional array in a heap. *)
Definition items (h : gmap nat (list T)) (v : view) : list (option T) :=
  item h v <$> range 0 (vlen v).

(** The array's buffer is in the heap and holds its elements, each at a
    place of its own. *)
Definition backed (h : gmap nat (list T)) (v : view) : bool :=
  match h !! vdata v with
  | Some b => (vlen v =? 0) || ((0 <? vstep v) && (offset v (vlen v - 1) <? length b))
  | None => false
  end.

(** An input of [proc_numba] that the output may be given with: in a buffer
    other than the output's, or the output array itself. *)
Definition apart_or_same (v zz : view) : Prop :=
  vdata v ≠ vdata zz ∨ v = zz.

(** What the loops leave in element [k] of the output, for the inputs as
    they are in [h]. *)
Definition computed (h : gmap nat (list T)) (xx yy : view) (k : nat) : option T :=
  match item h xx k, item h yy k with
  | Some x, Some y => Some (astype (formula x y))
  | _, _ => None
  end.

(** The heap after [j] rounds of the loop started in [h0]: only the buffer
    of [zz] differs, it holds the computed values in the first [j] elements
    of [zz] and its former values everywhere else. *)
Definition proc_inv (h0 : gmap nat (list T)) (xx yy zz : view) (j : nat)
    (h : gmap nat (list T)) : Prop :=
  ∃ b bz, h0 !! vdata zz = Some bz ∧ h = <[vdata zz := b]> h0 ∧
    length b = length bz ∧
    (∀ k, k < j → b !! offset zz k = computed h0 xx yy k) ∧
    (∀ a, (∀ k, k < j → a ≠ offset zz k) → b !! a = bz !! a).

End Procs.

(** ** Concrete calls of the cells and the loops, in binary64 *)

(** A training matrix of 2 by 2 and a test matrix of 1 by 2. *)
Definition test12 : ndarray := mk_ndarray 1 1 2 C_order.
Definition heap_cells : gmap nat (list float) :=
  {[ 0 := [1; 2; 3; 4]%float; 1 := [5; 6]%float ]}.

(** A matrix of the one row [[3, 4]], with a zeroed destination. *)
Definition heap_row : gmap nat (list float) :=
  {[ 0 := [3; 4]%float; 1 := replicate 10 0%float ]}.

(** Two inputs of three elements and an output of four. *)
Definition xx3 : view := mk_view 0 0 1 3.
Definition yy3 : view := mk_view 1 0 1 3.
Definition zz4 : view := mk_view 2 0 1 4.
Definition heap_procs : gmap nat (list float) :=
  {[ 0 := [1; 2; 3]%float; 1 := [4; 5; 6]%float; 2 := [7; 7; 7; 7]%float ]}.

(** [.88] as Python reads it: the nearest binary64. *)
Definition point88_64 : float := 0x1.c28f5c28f5c29p-1%float.

(** The conversion of a binary64 number to [float32] that an assignment to
    an element of a [float32] array applies: rounding to the nearest binary32
    number, ties to even, held as the binary64 number of the same value. *)
Definition to_float32 (f : float) : float :=
  match FloatOps.Prim2SF f with
  | SpecFloat.S754_finite s m e =>
      FloatOps.SF2Prim (SpecFloat.binary_round 24 128 s m e)
  | _ => f
  end.

(** The loops on binary64 arrays.  The output that [proc_numba] is given is
    a binary64 array too, so the conversion on assignment does nothing; the
    output that [proc_python] allocates is a [float32] array. *)
Definition formula64 : float → float → float :=
  formula PrimFloat.add PrimFloat.sub PrimFloat.mul
    2%float 55%float 99%float point88_64.

Definition proc_numba64 (nobs : nat) : view → view → view → exec view :=
  proc_numba PrimFloat.add PrimFloat.sub PrimFloat.mul
    2%float 55%float 99%float point88_64 (λ e, e) nobs.

Definition proc_python64 (nobs : nat) : view → view → exec view :=
  proc_python PrimFloat.add PrimFloat.sub PrimFloat.mul
    2%float 55%float 99%float point88_64 0%float to_float32 nobs.

(** ** Index arithmetic *)

Lemma flat_index_lt a k c :
  k < nrows a → c < ncols a → flat_index a k c < nrows a * ncols a.
Proof. unfold flat_index. destruct (layout a); nia. Qed.

Lemma flat_index_inj a k c k' c' :
  k < nrows a → c < ncols a → k' < nrows a → c' < ncols a →
  flat_index a k c = flat_index a k' c' → k = k' ∧ c = c'.
Proof.
  unfold flat_index. intros Hk Hc Hk' Hc'.
  destruct (layout a); intros Heq.
  - destruct (lt_eq_lt_dec k k') as [[Hlt| ->]|Hlt]; [nia|lia|nia].
  - destruct (lt_eq_lt_dec c c') as [[Hlt| ->]|Hlt]; [nia|lia|nia].
Qed.

Lemma block_start_double n i : i ≤ n → 2 * block_start n i + i * i = i * (2 * n + 3).
Proof. induction i as [|i IH]; simpl; [lia|]. intros Hi. nia. Qed.

Lemma block_start_copy_index n i : i ≤ n → block_start n i = copy_index n i.
Proof.
  intros Hi. unfold copy_index.
  pose proof (block_start_double n i Hi) as Hd.
  assert (i * (2 * n + 3 - i) = block_start n i * 2) as -> by nia.
  symmetry. apply Nat.div_mul. lia.
Qed.

Lemma block_start_n_feat n : block_start n n = n_feat n.
Proof.
  unfold n_feat.
  pose proof (block_start_double n n (le_n n)) as Hd.
  pose proof (Nat.div_mod_eq (n * (n + 1)) 2) as Hq.
  assert ((n * (n + 1)) `mod` 2 = 0) as Hm.
  { clear. induction n as [|n IH]; [done|].
    replace (S n * (S n + 1)) with (n * (n + 1) + (n + 1) * 2) by lia.
    by rewrite Nat.Div0.mod_add. }
  nia.
Qed.

Lemma block_length n i : length (block n i) = 1 + (n - i).
Proof. unfold block, range. simpl. by rewrite length_fmap, length_seq. Qed.

Lemma columns_prefix_length n i :
  length (flat_map (block n) (seq 0 i)) = block_start n i.
Proof.
  induction i as [|i IH]; [done|].
  rewrite seq_S, flat_map_app, length_app, IH. cbn [flat_map Nat.add].
  rewrite app_nil_r, block_length. cbn [block_start]. lia.
Qed.

Lemma columns_length n : length (columns n) = n_feat n.
Proof.
  unfold columns, range. rewrite Nat.sub_0_r, columns_prefix_length.
  apply block_start_n_feat.
Qed.

Lemma columns_block n i d :
  i < n → columns n !! (block_start n i + d) = block n i !! d ∨ 1 + (n - i) ≤ d.
Proof.
  intros Hi. destruct (decide (d < 1 + (n - i))) as [Hd|]; [left|right; lia].
  unfold columns, range. rewrite Nat.sub_0_r.
  assert (seq 0 n = seq 0 i ++ i :: seq (S i) (n - S i)) as ->.
  { replace n with (i + S (n - S i)) at 1 by lia. by rewrite seq_app. }
  rewrite flat_map_app. cbn [flat_map].
  rewrite lookup_app_r by (rewrite columns_prefix_length; lia).
  rewrite columns_prefix_length.
  replace (block_start n i + d - block_start n i) with d by lia.
  apply lookup_app_l. rewrite block_length. lia.
Qed.

Lemma columns_copy n i : i < n → columns n !! block_start n i = Some (Copy i).
Proof.
  intros Hi. destruct (columns_block n i 0 Hi) as [H|]; [|lia].
  by rewrite Nat.add_0_r in H.
Qed.

Lemma columns_prod n i j :
  i ≤ j → j < n → columns n !! (block_start n i + 1 + (j - i)) = Some (Prod i j).
Proof.
  intros Hij Hj. destruct (columns_block n i (1 + (j - i))) as [H|]; [lia| |lia].
  rewrite Nat.add_assoc in H. rewrite H. unfold block, range. simpl.
  rewrite list_lookup_fmap, lookup_seq_lt by lia. simpl. f_equal. f_equal. lia.
Qed.

Lemma block_start_mono n i j : i ≤ j → block_start n i ≤ block_start n j.
Proof. induction 1; simpl; lia. Qed.

Lemma block_start_inside n i d : i < n → d < 1 + (n - i) → block_start n i + d < n_feat n.
Proof.
  intros Hi Hd. rewrite <- block_start_n_feat.
  pose proof (block_start_mono n (S i) n Hi) as Hle. simpl in Hle. lia.
Qed.

Lemma block_start_above n i :
  i ≤ block_start n i ∧ (0 < i → i ≤ n → i < block_start n i).
Proof.
  induction i as [|i [IH _]]; simpl; [lia|]. split; lia.
Qed.

(** The first copies are at columns [0], [n + 1] and [2n + 1]. *)
Lemma copy_index_first n :
  copy_index n 0 = 0 ∧ copy_index n 1 = n + 1 ∧ copy_index n 2 = 2 * n + 1.
Proof.
  unfold copy_index. split; [done|]. split.
  - replace (1 * (2 * n + 3 - 1)) with ((n + 1) * 2) by lia.
    by rewrite Nat.div_mul.
  - replace (2 * (2 * n + 3 - 2)) with ((2 * n + 1) * 2) by lia.
    by rewrite Nat.div_mul.
Qed.

(** ** Reasoning about runs *)

Section Triples.

Context {T : Type}.

Lemma triple_ret {A : Type} (a : A) (Q : A → gmap nat (list T) → Prop) :
  triple (Q a) (ret a) Q.
Proof. intros h Hh. by exists a, h. Qed.

Lemma triple_bind {A B : Type} (P : gmap nat (list T) → Prop) (c : exec A) Q
    (f : A → exec B) R :
  triple P c Q → (∀ a, triple (Q a) (f a) R) → triple P (bind c f) R.
Proof.
  intros Hc Hf h Hh. destruct (Hc h Hh) as (a & h' & Hrun & Hq).
  unfold bind. rewrite Hrun. by apply Hf.
Qed.

Lemma triple_weaken {A : Type} (P P' : gmap nat (list T) → Prop) (c : exec A)
    (Q Q' : A → gmap nat (list T) → Prop) :
  (∀ h, P' h → P h) → (∀ a h, Q a h → Q' a h) → triple P c Q → triple P' c Q'.
Proof.
  intros Hp Hq Hc h Hh. destruct (Hc h (Hp h Hh)) as (a & h' & Hrun & Hq').
  exists a, h'. auto.
Qed.

Lemma triple_for_range {S : Type} (I : nat → S → gmap nat (list T) → Prop)
    (a b : nat) (body : nat → S → exec S) :
  a ≤ b →
  (∀ i s, a ≤ i → i < b → triple (I i s) (body i s) (I (i + 1))) →
  ∀ s, triple (I a s) (for_in (range a b) body s) (I b).
Proof.
  unfold range. intros Hab Hbody.
  remember (b - a) as d eqn:Hd. revert a Hab Hd Hbody.
  induction d as [|d IH]; intros a Hab Hd Hbody s.
  - assert (a = b) as -> by lia. apply triple_ret.
  - cbn [seq for_in]. eapply triple_bind.
    + apply Hbody; lia.
    + intros s'. rewrite Nat.add_1_r. apply IH; [lia|lia|].
      intros i s'' Hi Hib. apply Hbody; lia.
Qed.

Lemma triple_column (P : gmap nat (list T) → Prop) a i :
  i < ncols a → triple P (column a i) (λ v h, v = column_view a i ∧ P h).
Proof.
  intros Hi h Hh. unfold column.
  destruct (Nat.ltb_spec i (ncols a)); [|lia]. by eexists _, h.
Qed.

Lemma column_view_index a i k :
  vstart (column_view a i) + k * vstep (column_view a i) = flat_index a k i.
Proof. unfold column_view, flat_index. simpl. destruct (layout a); lia. Qed.

(** The kernel's loops, once for any invariant [P cf kp] ("the columns before
    [cf] and the first [kp] rows of column [cf] are done") that the element
    accesses maintain. *)
Section Loops.

Variable mul : T → T → T.
Variables x res : ndarray.
Variable P : nat → nat → gmap nat (list T) → Prop.
Variable V : nat → nat → T → Prop.
Variable G : nat → nat → T → Prop.

Hypothesis read2 : ∀ cf kp k j, k < nrows x → j < ncols x →
  triple (P cf kp) (getitem2 x k j) (λ e h, V k j e ∧ P cf kp h).
Hypothesis read1 : ∀ cf kp k i, k < nrows x → i < ncols x →
  triple (P cf kp) (getitem1 (column_view x i) k) (λ e h, V k i e ∧ P cf kp h).
Hypothesis write : ∀ cf kp v, kp < nrows x → cf < n_feat (ncols x) → G kp cf v →
  triple (P cf kp) (setitem2 res kp cf v) (λ _, P cf (kp + 1)).
Hypothesis roll : ∀ cf h, P cf (nrows x) h → P (cf + 1) 0 h.
Hypothesis copy_ok : ∀ k i e, k < nrows x → i < ncols x →
  V k i e → G k (block_start (ncols x) i) e.
Hypothesis prod_ok : ∀ k i j e e', k < nrows x → i ≤ j → j < ncols x →
  V k i e → V k j e' → G k (block_start (ncols x) i + 1 + (j - i)) (mul e e').

Lemma vec_poly_loops :
  triple (P 0 0) (vec_poly mul x res) (λ _, P (n_feat (ncols x)) 0).
Proof.
  unfold vec_poly, shape.
  apply triple_bind with (Q := λ _, P (n_feat (ncols x)) 0);
    [|intros ?; apply (triple_ret tt (λ _, P (n_feat (ncols x)) 0))].
  eapply triple_weaken; [| |apply (triple_for_range
    (λ i s h, s = block_start (ncols x) i ∧ P s 0 h) 0 (ncols x)); [lia|]].
  { intros h Hh. split; [done|exact Hh]. }
  { intros s h [-> Hh]. by rewrite <- block_start_n_feat. }
  intros i s _ Hi. eapply triple_bind; [by apply triple_column|].
  intros v1 h [-> [-> Hh]]. revert h Hh.
  change (triple (P (block_start (ncols x) i) 0)
    (bind (for_in (range 0 (nrows x)) (λ k _,
       bind (getitem1 (column_view x i) k)
         (λ e, setitem2 res k (block_start (ncols x) i) e)) tt)
     (λ _, for_in (range i (ncols x)) (λ j feat_idx,
       bind (for_in (range 0 (nrows x)) (λ k _,
         bind (getitem1 (column_view x i) k) (λ e,
           bind (getitem2 x k j) (λ e',
             setitem2 res k feat_idx (mul e e')))) tt)
         (λ _, ret (feat_idx + 1))) (block_start (ncols x) i + 1)))
    (λ s h, s = block_start (ncols x) (i + 1) ∧ P s 0 h)).
  eapply triple_bind.
  { apply (triple_for_range (λ k _ h, P (block_start (ncols x) i) k h) 0 (nrows x)); [lia|].
    intros k [] _ Hk. eapply triple_bind; [by apply read1|].
    intros e h [He Hh]. revert h Hh. apply write; [done| |by apply copy_ok].
    pose proof (block_start_inside (ncols x) i 0). lia. }
  intros []. eapply triple_weaken; [| |apply (triple_for_range
    (λ j s h, s = block_start (ncols x) i + 1 + (j - i) ∧ P s 0 h) i (ncols x)); [lia|]].
  { intros h Hh. split; [lia|by apply roll]. }
  { intros s h [-> Hh]. split; [|done].
    replace (i + 1) with (S i) by lia. cbn [block_start]. lia. }
  intros j s Hij Hj. intros h [-> Hh]. revert h Hh.
  eapply triple_bind.
  { apply (triple_for_range
      (λ k _ h, P (block_start (ncols x) i + 1 + (j - i)) k h) 0 (nrows x)); [lia|].
    intros k [] _ Hk. eapply triple_bind; [by apply (read1 _ _ k i)|].
    intros e h [He Hh]. revert h Hh.
    eapply triple_bind; [by apply (read2 _ _ k j)|].
    intros e' h [He' Hh]. revert h Hh. apply write; [done| |by apply prod_ok].
    pose proof (block_start_inside (ncols x) i (1 + (j - i))). lia. }
  intros [] h Hh. eexists _, h. split; [done|]. split; [lia|by apply roll].
Qed.

End Loops.

End Triples.

(** ** The kernel on separate buffers *)

Section Functional.

Context {T : Type}.
Variable mul : T → T → T.
Variables (h0 : gmap nat (list T)) (x res : ndarray) (bx br : list T).

Hypothesis Hx : h0 !! data x = Some bx.
Hypothesis Hr : h0 !! data res = Some br.
Hypothesis Hne : data x ≠ data res.
Hypothesis Hbx : nrows x * ncols x ≤ length bx.
Hypothesis Hbr : nrows res * ncols res ≤ length br.
Hypothesis Hm : nrows x ≤ nrows res.
Hypothesis Hn : n_feat (ncols x) ≤ ncols res.

Lemma entry_input k j :
  k < nrows x → j < ncols x → ∃ e, entry h0 x k j = Some e ∧ bx !! flat_index x k j = Some e.
Proof.
  intros Hk Hj. unfold entry.
  destruct (Nat.ltb_spec k (nrows x)); [|lia].
  destruct (Nat.ltb_spec j (ncols x)); [|lia].
  rewrite Hx. simpl.
  destruct (lookup_lt_is_Some_2 bx (flat_index x k j)) as [e He]; [|by exists e].
  pose proof (flat_index_lt x k j). lia.
Qed.

Lemma filled_input cf kp h : filled mul h0 x res cf kp h → h !! data x = Some bx.
Proof. intros (b & br' & _ & -> & _). by rewrite lookup_insert_ne. Qed.

Lemma filled_read2 cf kp k j :
  k < nrows x → j < ncols x →
  triple (filled mul h0 x res cf kp) (getitem2 x k j)
    (λ e h, entry h0 x k j = Some e ∧ filled mul h0 x res cf kp h).
Proof.
  intros Hk Hj h Hh. destruct (entry_input k j Hk Hj) as (e & He & Hb).
  exists e, h. unfold getitem2.
  destruct (Nat.ltb_spec k (nrows x)); [|lia].
  destruct (Nat.ltb_spec j (ncols x)); [|lia].
  rewrite (filled_input _ _ _ Hh). simpl. by rewrite Hb.
Qed.

Lemma filled_read1 cf kp k i :
  k < nrows x → i < ncols x →
  triple (filled mul h0 x res cf kp) (getitem1 (column_view x i) k)
    (λ e h, entry h0 x k i = Some e ∧ filled mul h0 x res cf kp h).
Proof.
  intros Hk Hi h Hh. destruct (entry_input k i Hk Hi) as (e & He & Hb).
  exists e, h. unfold getitem1. rewrite column_view_index.
  change (vlen (column_view x i)) with (nrows x).
  change (vdata (column_view x i)) with (data x).
  destruct (Nat.ltb_spec k (nrows x)); [|lia].
  rewrite (filled_input _ _ _ Hh). simpl. by rewrite Hb.
Qed.

Lemma filled_write cf kp v :
  kp < nrows x → cf < n_feat (ncols x) → expected mul h0 x kp cf = Some v →
  triple (filled mul h0 x res cf kp) (setitem2 res kp cf v)
    (λ _, filled mul h0 x res cf (kp + 1)).
Proof.
  intros Hk Hc Hv h (b & br' & Hr' & -> & Hlen & Hdone & Hrest).
  assert (br' = br) as -> by congruence.
  pose proof (flat_index_lt res kp cf) as Hlt.
  exists tt, (<[data res := <[flat_index res kp cf := v]> b]> h0).
  split.
  - unfold setitem2.
    destruct (Nat.ltb_spec kp (nrows res)); [|lia].
    destruct (Nat.ltb_spec cf (ncols res)); [|lia].
    rewrite lookup_insert_eq. simpl.
    destruct (Nat.ltb_spec (flat_index res kp cf) (length b)); [|lia].
    by rewrite insert_insert_eq.
  - exists (<[flat_index res kp cf := v]> b), br.
    split; [done|]. split; [done|]. split; [by rewrite length_insert|]. split.
    + intros k c [Hk' Hw].
      destruct (decide (k = kp ∧ c = cf)) as [[-> ->]|Hother].
      * rewrite list_lookup_insert_eq by lia. done.
      * rewrite list_lookup_insert_ne.
        { apply Hdone. split; [done|]. lia. }
        intros Heq. apply Hother.
        destruct (flat_index_inj res kp cf k c); lia.
    + intros k c Hk' Hc' Hw.
      rewrite list_lookup_insert_ne.
      { apply Hrest; [done|done|]. unfold written in *. lia. }
      intros Heq. apply Hw.
      destruct (flat_index_inj res kp cf k c) as [<- <-]; try lia.
      unfold written. lia.
Qed.

Lemma filled_roll cf h :
  filled mul h0 x res cf (nrows x) h → filled mul h0 x res (cf + 1) 0 h.
Proof.
  intros (b & br' & Hr' & -> & Hlen & Hdone & Hrest).
  exists b, br'. repeat split; try done.
  - intros k c Hw. apply Hdone. unfold written in *. lia.
  - intros k c Hk Hc Hw. apply Hrest; [done|done|]. unfold written in *. lia.
Qed.

Lemma filled_start : filled mul h0 x res 0 0 h0.
Proof.
  exists br, br. repeat split; try done.
  - by rewrite insert_id.
  - intros k c Hw. unfold written in Hw. lia.
Qed.

Lemma vec_poly_filled :
  ∃ h', vec_poly mul x res h0 = Done (tt, h')
        ∧ filled mul h0 x res (n_feat (ncols x)) 0 h'.
Proof.
  destruct (vec_poly_loops mul x res (filled mul h0 x res)
              (λ k j e, entry h0 x k j = Some e)
              (λ k c v, expected mul h0 x k c = Some v)
              filled_read2 filled_read1 filled_write filled_roll)
    with (h := h0) as ([] & h' & Hrun & Hh').
  - intros k i e Hk Hi He. unfold expected.
    rewrite columns_copy by done. simpl. exact He.
  - intros k i j e e' Hk Hij Hj He He'. unfold expected.
    rewrite columns_prod by done. simpl. by rewrite He, He'.
  - apply filled_start.
  - by exists h'.
Qed.

End Functional.

(** ** Consequences for a valid call *)

Lemma columns_in_range n c f :
  columns n !! c = Some f →
  match f with
  | Copy i => i < n
  | Prod i j => i ≤ j ∧ j < n
  end.
Proof.
  intros Hc. apply list_elem_of_lookup_2, list_elem_of_In in Hc.
  unfold columns, range in Hc. apply in_flat_map in Hc as (i & Hi & Hf).
  apply in_seq in Hi. destruct Hf as [<-|Hf]; [lia|].
  apply list_elem_of_In, list_elem_of_fmap in Hf as (j & -> & Hj).
  apply list_elem_of_In, in_seq in Hj. lia.
Qed.

Section Valid.

Context {T : Type}.
Variable mul : T → T → T.

Lemma allocated_spec (h : gmap nat (list T)) a :
  allocated h a = true → ∃ b, h !! data a = Some b ∧ nrows a * ncols a ≤ length b.
Proof.
  unfold allocated. destruct (h !! data a) as [b|]; [|done].
  intros Hb. exists b. split; [done|]. by apply Nat.leb_le.
Qed.

Lemma entry_allocated (h : gmap nat (list T)) a k c :
  allocated h a = true → k < nrows a → c < ncols a → is_Some (entry h a k c).
Proof.
  intros (b & Hb & Hlen)%allocated_spec Hk Hc. unfold entry.
  destruct (Nat.ltb_spec k (nrows a)); [|lia].
  destruct (Nat.ltb_spec c (ncols a)); [|lia].
  rewrite Hb. simpl. apply lookup_lt_is_Some_2.
  pose proof (flat_index_lt a k c). lia.
Qed.

Lemma feature_value_allocated (h : gmap nat (list T)) x k c f :
  allocated h x = true → k < nrows x → columns (ncols x) !! c = Some f →
  is_Some (feature_value mul h x k f).
Proof.
  intros Hx Hk Hf%columns_in_range. destruct f as [i|i j]; simpl.
  - by apply entry_allocated.
  - destruct (entry_allocated h x k i Hx) as [e ->]; [done|lia|].
    destruct (entry_allocated h x k j Hx) as [e' ->]; [done|lia|]. done.
Qed.

Lemma valid_call_spec (h : gmap nat (list T)) x res :
  valid_call h x res = true →
  allocated h x = true ∧ allocated h res = true ∧ data x ≠ data res
  ∧ nrows x ≤ nrows res ∧ n_feat (ncols x) ≤ ncols res.
Proof.
  unfold valid_call. rewrite !andb_true_iff, negb_true_iff.
  rewrite Nat.eqb_neq, !Nat.leb_le. tauto.
Qed.

(** A valid call completes; it changes no buffer but that of [res], leaves
    the expected value in each of the [m] by [n_feat] leading entries of [res]
    and every other entry of [res] as it was. *)
Lemma vec_poly_valid (h : gmap nat (list T)) x res :
  valid_call h x res = true →
  ∃ h', vec_poly mul x res h = Done (tt, h')
    ∧ (∀ l, l ≠ data res → h' !! l = h !! l)
    ∧ (∀ k c, k < nrows x → c < n_feat (ncols x) →
         entry h' res k c = expected mul h x k c)
    ∧ (∀ k c, ¬ (k < nrows x ∧ c < n_feat (ncols x)) →
         entry h' res k c = entry h res k c).
Proof.
  intros (Hax & Har & Hne & Hm & Hn)%valid_call_spec.
  destruct (allocated_spec _ _ Hax) as (bx & Hx & Hbx).
  destruct (allocated_spec _ _ Har) as (br & Hr & Hbr).
  destruct (vec_poly_filled mul h x res bx br Hx Hr Hne Hbx Hbr Hm Hn)
    as (h' & Hrun & b & br' & Hr' & -> & Hlen & Hdone & Hrest).
  assert (br' = br) as -> by congruence.
  exists (<[data res := b]> h). split; [done|]. split; [|split].
  - intros l Hl. by rewrite lookup_insert_ne.
  - intros k c Hk Hc. unfold entry at 1.
    destruct (Nat.ltb_spec k (nrows res)); [|lia].
    destruct (Nat.ltb_spec c (ncols res)); [|lia].
    rewrite lookup_insert_eq. simpl. apply Hdone. unfold written. lia.
  - intros k c Hkc. unfold entry.
    destruct (Nat.ltb_spec k (nrows res)); [|done].
    destruct (Nat.ltb_spec c (ncols res)); [|done].
    rewrite lookup_insert_eq, Hr. simpl. apply Hrest; [done|done|].
    unfold written. lia.
Qed.

End Valid.

(** ** Accesses stay inside the arrays *)

Section Safety.

Context {T : Type}.
Variable mul : T → T → T.
Variables (h0 : gmap nat (list T)) (x res : ndarray).

Hypothesis Hax : allocated h0 x = true.
Hypothesis Har : allocated h0 res = true.
Hypothesis Hm : nrows x ≤ nrows res.
Hypothesis Hn : n_feat (ncols x) ≤ ncols res.

Lemma same_sizes_allocated h a :
  same_sizes h0 h → allocated h0 a = true →
  ∃ b, h !! data a = Some b ∧ nrows a * ncols a ≤ length b.
Proof.
  intros Hs (b0 & Hb0 & Hlen)%allocated_spec.
  specialize (Hs (data a)). rewrite Hb0 in Hs.
  destruct (h !! data a) as [b|]; [|done].
  exists b. split; [done|]. simpl in Hs. injection Hs as ->. done.
Qed.

Lemma sizes_read2 k j :
  k < nrows x → j < ncols x →
  triple (same_sizes h0) (getitem2 x k j) (λ _ h, True ∧ same_sizes h0 h).
Proof.
  intros Hk Hj h Hh.
  destruct (same_sizes_allocated h x Hh Hax) as (b & Hb & Hlen).
  destruct (lookup_lt_is_Some_2 b (flat_index x k j)) as [e He].
  { pose proof (flat_index_lt x k j). lia. }
  exists e, h. unfold getitem2.
  destruct (Nat.ltb_spec k (nrows x)); [|lia].
  destruct (Nat.ltb_spec j (ncols x)); [|lia].
  rewrite Hb. simpl. by rewrite He.
Qed.

Lemma sizes_read1 k i :
  k < nrows x → i < ncols x →
  triple (same_sizes h0) (getitem1 (column_view x i) k)
    (λ _ h, True ∧ same_sizes h0 h).
Proof.
  intros Hk Hi h Hh.
  destruct (same_sizes_allocated h x Hh Hax) as (b & Hb & Hlen).
  destruct (lookup_lt_is_Some_2 b (flat_index x k i)) as [e He].
  { pose proof (flat_index_lt x k i). lia. }
  exists e, h. unfold getitem1. rewrite column_view_index.
  change (vlen (column_view x i)) with (nrows x).
  change (vdata (column_view x i)) with (data x).
  destruct (Nat.ltb_spec k (nrows x)); [|lia].
  rewrite Hb. simpl. by rewrite He.
Qed.

Lemma sizes_write k c v :
  k < nrows x → c < n_feat (ncols x) →
  triple (same_sizes h0) (setitem2 res k c v) (λ _, same_sizes h0).
Proof.
  intros Hk Hc h Hh.
  destruct (same_sizes_allocated h res Hh Har) as (b & Hb & Hlen).
  pose proof (flat_index_lt res k c) as Hlt.
  exists tt, (<[data res := <[flat_index res k c := v]> b]> h). split.
  - unfold setitem2.
    destruct (Nat.ltb_spec k (nrows res)); [|lia].
    destruct (Nat.ltb_spec c (ncols res)); [|lia].
    rewrite Hb.
    destruct (Nat.ltb_spec (flat_index res k c) (length b)); [done|lia].
  - intros l. destruct (decide (l = data res)) as [->|Hl].
    + rewrite lookup_insert_eq, <- (Hh (data res)), Hb. simpl.
      by rewrite length_insert.
    + rewrite lookup_insert_ne by done. apply Hh.
Qed.

Lemma vec_poly_in_bounds :
  ∃ h', vec_poly mul x res h0 = Done (tt, h') ∧ same_sizes h0 h'.
Proof.
  destruct (vec_poly_loops mul x res (λ _ _, same_sizes h0)
              (λ _ _ _, True) (λ _ _ _, True))
    with (h := h0) as ([] & h' & Hrun & Hh'); try done.
  - intros ? ?. apply sizes_read2.
  - intros ? ?. apply sizes_read1.
  - intros ? k v Hk Hc ?. by apply sizes_write.
  - by exists h'.
Qed.

End Safety.

(** ** Empty inputs *)

Lemma vec_poly_empty {T : Type} (mul : T → T → T) x res (h : gmap nat (list T)) :
  nrows x = 0 ∨ ncols x = 0 → vec_poly mul x res h = Done (tt, h).
Proof.
  intros Hempty.
  destruct (vec_poly_loops mul x res (λ _ _ h', h' = h)
              (λ _ _ _, True) (λ _ _ _, False))
    with (h := h) as ([] & h' & Hrun & ->); try done; intros; lia.
Qed.

(** ** Arrays as rows *)

Section Rows.

Context {T : Type}.

Lemma rows_ext (h h' : gmap nat (list T)) a b :
  shape a = shape b →
  (∀ k c, k < nrows a → c < ncols a → entry h a k c = entry h' b k c) →
  rows h a = rows h' b.
Proof.
  unfold shape, rows, range. intros [= <- <-] Hentry.
  apply list_fmap_ext. intros ? k [-> Hk]%lookup_seq.
  apply list_fmap_ext. intros ? c [-> Hc]%lookup_seq.
  apply Hentry; lia.
Qed.

Lemma rows_lookup (h : gmap nat (list T)) a k c :
  k < nrows a → c < ncols a →
  rows h a !! k ≫= (.!! c) = Some (entry h a k c).
Proof.
  intros Hk Hc. unfold rows, range.
  rewrite list_lookup_fmap, lookup_seq_lt by lia. simpl.
  rewrite list_lookup_fmap, lookup_seq_lt by lia. done.
Qed.

Lemma rows_entry (h h' : gmap nat (list T)) a b k c :
  shape a = shape b → rows h a = rows h' b → entry h a k c = entry h' b k c.
Proof.
  unfold shape. intros [= Hr Hc] Hrows.
  destruct (decide (k < nrows a ∧ c < ncols a)) as [[Hk Hc']|Hout].
  - pose proof (rows_lookup h a k c Hk Hc') as Ha.
    pose proof (rows_lookup h' b k c) as Hb.
    rewrite Hrows, Hb in Ha by lia. by injection Ha.
  - unfold entry. rewrite <- Hr, <- Hc.
    destruct (Nat.ltb_spec k (nrows a)); [|done].
    destruct (Nat.ltb_spec c (ncols a)); [|done]. lia.
Qed.

Lemma expected_ext (mul : T → T → T) (h h' : gmap nat (list T)) x x' k c :
  shape x = shape x' → rows h x = rows h' x' →
  expected mul h x k c = expected mul h' x' k c.
Proof.
  intros Hs Hrows. unfold expected.
  assert (ncols x = ncols x') as <- by (unfold shape in Hs; congruence).
  destruct (columns (ncols x) !! c) as [[i|i j]|]; simpl; [| |done].
  - by apply rows_entry.
  - by rewrite (rows_entry h h' x x' k i), (rows_entry h h' x x' k j).
Qed.

Lemma rows_same_buffer (h h' : gmap nat (list T)) a :
  h' !! data a = h !! data a → rows h' a = rows h a.
Proof.
  intros Hb. apply rows_ext; [done|]. intros k c _ _. unfold entry. by rewrite Hb.
Qed.

(** A completed access was inside the array. *)
Lemma getitem2_done (h : gmap nat (list T)) a k c r :
  getitem2 a k c h = Done r → k < nrows a ∧ c < ncols a.
Proof.
  unfold getitem2. destruct (Nat.ltb_spec k (nrows a)); [|done].
  destruct (Nat.ltb_spec c (ncols a)); [|done]. done.
Qed.

Lemma setitem2_done (h : gmap nat (list T)) a k c v r :
  setitem2 a k c v h = Done r → k < nrows a ∧ c < ncols a.
Proof.
  unfold setitem2. destruct (Nat.ltb_spec k (nrows a)); [|done].
  destruct (Nat.ltb_spec c (ncols a)); [|done]. done.
Qed.

End Rows.

(** ** Properties of the kernel *)

Section Properties.

Context {T : Type}.
Variable mul : T → T → T.

(** C1. The kernel emits the columns in the order of [columns]: for [i] from
    [0] to [n-1], a column equal to input column [i], then for [j] from [i] to
    [n-1] a column equal to the product of input columns [i] and [j].  Output
    column [c] holds, in every row, the value of the [c]-th feature of that
    list, which depends on [n] alone and has [n_feat n] members. *)
Theorem vec_poly_column_order (h : gmap nat (list T)) x res :
  valid_call h x res = true →
  length (columns (ncols x)) = n_feat (ncols x)
  ∧ ∃ h', vec_poly mul x res h = Done (tt, h')
      ∧ ∀ k c f, k < nrows x → columns (ncols x) !! c = Some f →
          ∃ v, feature_value mul h x k f = Some v ∧ entry h' res k c = Some v.
Proof.
  intros Hvalid. split; [apply columns_length|].
  destruct (vec_poly_valid mul h x res Hvalid) as (h' & Hrun & _ & Hin & _).
  exists h'. split; [done|]. intros k c f Hk Hf.
  apply valid_call_spec in Hvalid as (Hax & _).
  destruct (feature_value_allocated mul h x k c f Hax Hk Hf) as [v Hv].
  exists v. split; [done|]. rewrite Hin.
  - unfold expected. rewrite Hf. done.
  - done.
  - rewrite <- columns_length. by eapply lookup_lt_Some.
Qed.

(** C2, as amended.  Input column [i] is copied, unchanged, to output column
    [copy_index n i = i * (2n + 3 - i) / 2], the start of its block.  That is
    column [i] for [i = 0] only: output columns [1] to [n-1] hold the products
    of input column [0] with input columns [0] to [n-2]. *)
Theorem vec_poly_copy_columns (h : gmap nat (list T)) x res :
  valid_call h x res = true →
  ∃ h', vec_poly mul x res h = Done (tt, h')
    ∧ (∀ i k, i < ncols x → k < nrows x →
         is_Some (entry h x k i)
         ∧ entry h' res k (copy_index (ncols x) i) = entry h x k i)
    ∧ (∀ i, i < ncols x → (copy_index (ncols x) i = i ↔ i = 0))
    ∧ (∀ c k, 0 < c → c < ncols x → k < nrows x →
         ∃ e e', entry h x k 0 = Some e ∧ entry h x k (c - 1) = Some e'
           ∧ entry h' res k c = Some (mul e e')).
Proof.
  intros Hvalid.
  destruct (vec_poly_valid mul h x res Hvalid) as (h' & Hrun & _ & Hin & _).
  exists h'. split; [done|].
  apply valid_call_spec in Hvalid as (Hax & _).
  split; [|split].
  - intros i k Hi Hk. split; [by apply entry_allocated|].
    rewrite <- block_start_copy_index by lia.
    rewrite Hin; [|done|].
    + unfold expected. by rewrite columns_copy.
    + pose proof (block_start_inside (ncols x) i 0). lia.
  - intros i Hi. rewrite <- block_start_copy_index by lia.
    pose proof (block_start_above (ncols x) i).
    destruct (decide (i = 0)) as [->|Hpos]; [done|lia].
  - intros c k Hc Hcn Hk.
    destruct (entry_allocated h x k 0 Hax) as [e He]; [done|lia|].
    destruct (entry_allocated h x k (c - 1) Hax) as [e' He']; [done|lia|].
    exists e, e'. split; [done|]. split; [done|].
    pose proof (columns_prod (ncols x) 0 (c - 1)) as Hp.
    replace (block_start (ncols x) 0 + 1 + (c - 1 - 0)) with c in Hp
      by (simpl; lia).
    rewrite Hin; [|done|].
    + unfold expected. rewrite Hp by lia. simpl. by rewrite He, He'.
    + pose proof (block_start_inside (ncols x) 0 c). simpl in *. lia.
Qed.

(** C4. For [i <= j < n], output column [pair_index n i j], the one the
    kernel fills for the pair, holds in each row the product of the two input
    entries of that row: one multiplication per entry. *)
Theorem vec_poly_pair_products (h : gmap nat (list T)) x res :
  valid_call h x res = true →
  ∃ h', vec_poly mul x res h = Done (tt, h')
    ∧ ∀ i j k, i ≤ j → j < ncols x → k < nrows x →
        ∃ e e', entry h x k i = Some e ∧ entry h x k j = Some e'
          ∧ entry h' res k (pair_index (ncols x) i j) = Some (mul e e').
Proof.
  intros Hvalid.
  destruct (vec_poly_valid mul h x res Hvalid) as (h' & Hrun & _ & Hin & _).
  exists h'. split; [done|].
  apply valid_call_spec in Hvalid as (Hax & _).
  intros i j k Hij Hj Hk.
  destruct (entry_allocated h x k i Hax) as [e He]; [done|lia|].
  destruct (entry_allocated h x k j Hax) as [e' He']; [done|done|].
  exists e, e'. split; [done|]. split; [done|].
  unfold pair_index. rewrite <- block_start_copy_index by lia.
  rewrite Hin; [|done|].
  - unfold expected. rewrite columns_prod by done. simpl. by rewrite He, He'.
  - pose proof (block_start_inside (ncols x) i (1 + (j - i))). lia.
Qed.

(** C5. With a destination of shape [(m, n_feat n)], the kernel writes every
    entry: the destination has [m] rows of [n_feat n] entries after the run,
    and they are the same whatever the destination held before. *)
Theorem vec_poly_overwrites (h1 h2 : gmap nat (list T)) x res :
  valid_call h1 x res = true → valid_call h2 x res = true →
  shape res = (nrows x, n_feat (ncols x)) →
  h1 !! data x = h2 !! data x →
  ∃ h1' h2', vec_poly mul x res h1 = Done (tt, h1')
    ∧ vec_poly mul x res h2 = Done (tt, h2')
    ∧ length (rows h1' res) = nrows x
    ∧ Forall (λ r, length r = n_feat (ncols x) ∧ Forall is_Some r) (rows h1' res)
    ∧ rows h1' res = rows h2' res.
Proof.
  unfold shape. intros Hv1 Hv2 [= Hrows Hcols] Hsame.
  destruct (vec_poly_valid mul h1 x res Hv1) as (h1' & Hrun1 & _ & Hin1 & _).
  destruct (vec_poly_valid mul h2 x res Hv2) as (h2' & Hrun2 & _ & Hin2 & _).
  exists h1', h2'. split; [done|]. split; [done|].
  apply valid_call_spec in Hv1 as (Hax & _).
  split; [|split].
  - unfold rows, range. rewrite length_fmap, length_seq. lia.
  - unfold rows, range. rewrite Hrows, Hcols, !Nat.sub_0_r.
    apply Forall_fmap, Forall_forall. intros k [_ Hk]%elem_of_seq. simpl.
    split; [by rewrite length_fmap, length_seq|].
    apply Forall_fmap, Forall_forall. intros c [_ Hc]%elem_of_seq. simpl.
    rewrite Hin1 by lia. unfold expected.
    destruct (lookup_lt_is_Some_2 (columns (ncols x)) c) as [f Hf].
    { rewrite columns_length. lia. }
    rewrite Hf. simpl. by eapply feature_value_allocated.
  - apply rows_ext; [done|]. intros k c Hk Hc.
    rewrite Hin1, Hin2 by lia.
    apply expected_ext; [done|]. symmetry. by apply rows_same_buffer.
Qed.

(** C6, as amended.  The kernel checks nothing about the shape of its input:
    with no rows or no columns it completes and writes nothing. *)
Theorem vec_poly_empty_input (h : gmap nat (list T)) x res :
  nrows x = 0 ∨ ncols x = 0 → vec_poly mul x res h = Done (tt, h).
Proof. apply vec_poly_empty. Qed.

(** C7, as amended.  The kernel makes no check of the destination's shape.
    With a destination of at least [m] rows and [n_feat n] columns, in a buffer
    of its own, it completes, fills the leading [m] by [n_feat n] entries and
    leaves every other entry of the destination as it was. *)
Theorem vec_poly_larger_destination (h : gmap nat (list T)) x res :
  valid_call h x res = true →
  ∃ h', vec_poly mul x res h = Done (tt, h')
    ∧ (∀ k c, k < nrows x → c < n_feat (ncols x) →
         is_Some (expected mul h x k c)
         ∧ entry h' res k c = expected mul h x k c)
    ∧ (∀ k c, ¬ (k < nrows x ∧ c < n_feat (ncols x)) →
         entry h' res k c = entry h res k c).
Proof.
  intros Hvalid.
  destruct (vec_poly_valid mul h x res Hvalid) as (h' & Hrun & _ & Hin & Hout).
  exists h'. split; [done|]. split; [|done].
  apply valid_call_spec in Hvalid as (Hax & _).
  intros k c Hk Hc. split; [|by apply Hin]. unfold expected.
  destruct (lookup_lt_is_Some_2 (columns (ncols x)) c) as [f Hf].
  { rewrite columns_length. lia. }
  rewrite Hf. simpl. by eapply feature_value_allocated.
Qed.

(** C8. Two inputs with the same values produce the same output, whatever
    the storage order of either input and of either destination: row-major
    against column-major in particular. *)
Theorem vec_poly_layout_independent (h1 h2 : gmap nat (list T)) x1 x2 res1 res2 :
  valid_call h1 x1 res1 = true → valid_call h2 x2 res2 = true →
  shape x1 = shape x2 → rows h1 x1 = rows h2 x2 →
  shape res1 = (nrows x1, n_feat (ncols x1)) → shape res2 = shape res1 →
  ∃ h1' h2', vec_poly mul x1 res1 h1 = Done (tt, h1')
    ∧ vec_poly mul x2 res2 h2 = Done (tt, h2')
    ∧ rows h1' res1 = rows h2' res2.
Proof.
  unfold shape at 3. intros Hv1 Hv2 Hshape Hvalues [= Hrows Hcols] Hres.
  destruct (vec_poly_valid mul h1 x1 res1 Hv1) as (h1' & Hrun1 & _ & Hin1 & _).
  destruct (vec_poly_valid mul h2 x2 res2 Hv2) as (h2' & Hrun2 & _ & Hin2 & _).
  exists h1', h2'. split; [done|]. split; [done|].
  apply rows_ext; [done|]. intros k c Hk Hc.
  assert (nrows x1 = nrows x2 ∧ ncols x1 = ncols x2) as [Hr Hc'].
  { unfold shape in Hshape. by injection Hshape. }
  rewrite <- Hr, <- Hc' in Hin2.
  rewrite Hin1, Hin2 by lia. by apply expected_ext.
Qed.

(** C9. A valid call leaves the input as it was: the buffer of [x], and every
    buffer other than that of [res], is unchanged. *)
Theorem vec_poly_input_unchanged (h : gmap nat (list T)) x res :
  valid_call h x res = true →
  ∃ h', vec_poly mul x res h = Done (tt, h')
    ∧ (∀ l, l ≠ data res → h' !! l = h !! l)
    ∧ h' !! data x = h !! data x
    ∧ rows h' x = rows h x.
Proof.
  intros Hvalid.
  destruct (vec_poly_valid mul h x res Hvalid) as (h' & Hrun & Hframe & _).
  apply valid_call_spec in Hvalid as (_ & _ & Hne & _).
  exists h'. split; [done|]. split; [done|].
  assert (h' !! data x = h !! data x) as Hx by (by apply Hframe).
  split; [done|]. by apply rows_same_buffer.
Qed.

(** C10. With a destination of shape [(m, n_feat n)], every element access of
    the run is inside its array: the run completes, so no read of [x] and no
    write [res[k, feat_idx]] met an index outside the shape. *)
Theorem vec_poly_accesses_in_bounds (h : gmap nat (list T)) x res :
  allocated h x = true → allocated h res = true →
  shape res = (nrows x, n_feat (ncols x)) →
  ∃ h', vec_poly mul x res h = Done (tt, h').
Proof.
  unfold shape. intros Hax Har [= Hrows Hcols].
  destruct (vec_poly_in_bounds mul h x res Hax Har) as (h' & Hrun & _); [lia|lia|].
  by exists h'.
Qed.

End Properties.

(** ** The kernel on concrete inputs *)

(** The diabetes data has ten variables: 65 features, the width the notebook
    prints for the training matrix. *)
Example n_feat_ten : n_feat 10 = 65.
Proof. reflexivity. Qed.

Example columns_two :
  columns 2 = [Copy 0; Prod 0 0; Prod 0 1; Copy 1; Prod 1 1].
Proof. reflexivity. Qed.

(** One variable: the column and its square. *)
Example columns_one : columns 1 = [Copy 0; Prod 0 0].
Proof. reflexivity. Qed.

(** The column-major call of the notebook gives the same rows. *)
Example vec_poly_scenario_fortran :
  output PrimFloat.mul x22F res25F heap22F
  = output PrimFloat.mul x22 res25 heap22.
Proof. vm_compute. reflexivity. Qed.

(** Two rows, or two columns, of binary64 numbers are different when a
    comparison tells two of their entries apart. *)
Ltac floats_differ H k :=
  apply (f_equal (λ r : list (option float),
           match r !! k with
           | Some (Some a) => PrimFloat.eqb a 1
           | _ => false
           end)) in H;
  vm_compute in H; discriminate H.

(** C3, as amended.  On [x = [[1,2],[3,4]]] the kernel produces
    [[[1,1,2,2,4],[3,9,12,4,16]]]: the columns are
    [x0, x0*x0, x0*x1, x1, x1*x1]. *)
Theorem vec_poly_scenario :
  output PrimFloat.mul x22 res25 heap22
  = Some ((λ r : list float, Some <$> r) <$> [[1; 1; 2; 2; 4]; [3; 9; 12; 4; 16]]%float).
Proof. vm_compute. reflexivity. Qed.

(** C3 as stated fails: the output is not [[[1,2,1,2,4],[3,4,9,12,16]]]. *)
Lemma vec_poly_scenario_not_as_claimed :
  output PrimFloat.mul x22 res25 heap22
  ≠ Some ((λ r : list float, Some <$> r) <$> [[1; 2; 1; 2; 4]; [3; 4; 9; 12; 16]]%float).
Proof.
  intros H.
  apply (f_equal (λ o, default [] (o ≫= (.!! 0)))) in H.
  vm_compute in H. floats_differ H 1.
Qed.

(** C2 as stated fails: on [x = [[1,2],[3,4]]] output column [1] is
    [x0*x0 = [1, 9]], not input column [1], which is [[2, 4]]. *)
Lemma vec_poly_second_column_not_copy :
  ∃ h', vec_poly PrimFloat.mul x22 res25 heap22 = Done (tt, h')
    ∧ col h' res25 1 ≠ col heap22 x22 1.
Proof.
  eexists. split; [vm_compute; reflexivity|].
  intros H. vm_compute in H. floats_differ H 0.
Qed.

(** C6 as stated fails: on an input with no rows the kernel does not fail, it
    completes and leaves the heap as it was. *)
Lemma vec_poly_no_rows_completes :
  nrows x02 = 0
  ∧ vec_poly PrimFloat.mul x02 res25 heap02 = Done (tt, heap02)
  ∧ vec_poly PrimFloat.mul x02 res25 heap02 ≠ OutOfBounds.
Proof. split; [done|]. split; [|intros H]; by vm_compute. Qed.

(** C7 as stated fails: with a 2 by 6 destination for a 2 by 2 input, whose
    features need 2 by 5, the kernel does not fail, and writes. *)
Lemma vec_poly_wrong_shape_written :
  shape res26 ≠ (nrows x22, n_feat (ncols x22))
  ∧ ∃ h', vec_poly PrimFloat.mul x22 res26 heap26 = Done (tt, h')
      ∧ col h' res26 0 ≠ col heap26 res26 0.
Proof.
  split; [by vm_compute|].
  eexists. split; [vm_compute; reflexivity|].
  intros H. vm_compute in H. floats_differ H 0.
Qed.

(** Why C9 asks for separate buffers: when the input is a part of the
    destination's buffer, the kernel overwrites its own input. *)
Lemma vec_poly_shared_buffer_changes_input :
  ∃ h', vec_poly PrimFloat.mul x12 res15 heap_shared = Done (tt, h')
    ∧ rows h' x12 ≠ rows heap_shared x12.
Proof.
  eexists. split; [vm_compute; reflexivity|].
  intros H. apply (f_equal (λ m, default [] (m !! 0))) in H.
  vm_compute in H.
  apply (f_equal (λ r : list (option float),
           match r !! 1 with
           | Some (Some a) => PrimFloat.eqb a 3
           | _ => false
           end)) in H.
  vm_compute in H. discriminate H.
Qed.

(** ** The properties at concrete inputs *)

Lemma vec_poly_column_order_witness :
  valid_call heap22 x22 res25 = true
  ∧ length (columns (ncols x22)) = n_feat (ncols x22)
  ∧ ∃ h', vec_poly PrimFloat.mul x22 res25 heap22 = Done (tt, h')
      ∧ ∀ k c f, k < nrows x22 → columns (ncols x22) !! c = Some f →
          ∃ v, feature_value PrimFloat.mul heap22 x22 k f = Some v
               ∧ entry h' res25 k c = Some v.
Proof.
  split; [reflexivity|].
  apply (vec_poly_column_order PrimFloat.mul heap22 x22 res25). reflexivity.
Defined.

Lemma vec_poly_copy_columns_witness :
  valid_call heap22 x22 res25 = true
  ∧ ∃ h', vec_poly PrimFloat.mul x22 res25 heap22 = Done (tt, h')
      ∧ (∀ i k, i < ncols x22 → k < nrows x22 →
           is_Some (entry heap22 x22 k i)
           ∧ entry h' res25 k (copy_index (ncols x22) i) = entry heap22 x22 k i)
      ∧ (∀ i, i < ncols x22 → (copy_index (ncols x22) i = i ↔ i = 0))
      ∧ (∀ c k, 0 < c → c < ncols x22 → k < nrows x22 →
           ∃ e e', entry heap22 x22 k 0 = Some e
             ∧ entry heap22 x22 k (c - 1) = Some e'
             ∧ entry h' res25 k c = Some (PrimFloat.mul e e')).
Proof.
  split; [reflexivity|].
  apply (vec_poly_copy_columns PrimFloat.mul heap22 x22 res25). reflexivity.
Defined.

Lemma vec_poly_pair_products_witness :
  valid_call heap22F x22F res25F = true
  ∧ ∃ h', vec_poly PrimFloat.mul x22F res25F heap22F = Done (tt, h')
      ∧ ∀ i j k, i ≤ j → j < ncols x22F → k < nrows x22F →
          ∃ e e', entry heap22F x22F k i = Some e
            ∧ entry heap22F x22F k j = Some e'
            ∧ entry h' res25F k (pair_index (ncols x22F) i j)
              = Some (PrimFloat.mul e e').
Proof.
  split; [reflexivity|].
  apply (vec_poly_pair_products PrimFloat.mul heap22F x22F res25F). reflexivity.
Defined.

Lemma vec_poly_overwrites_witness :
  valid_call heap22 x22 res25 = true
  ∧ valid_call heap22_used x22 res25 = true
  ∧ shape res25 = (nrows x22, n_feat (ncols x22))
  ∧ heap22 !! data x22 = heap22_used !! data x22
  ∧ ∃ h1' h2', vec_poly PrimFloat.mul x22 res25 heap22 = Done (tt, h1')
      ∧ vec_poly PrimFloat.mul x22 res25 heap22_used = Done (tt, h2')
      ∧ length (rows h1' res25) = nrows x22
      ∧ Forall (λ r, length r = n_feat (ncols x22) ∧ Forall is_Some r)
          (rows h1' res25)
      ∧ rows h1' res25 = rows h2' res25.
Proof.
  split; [reflexivity|]. split; [reflexivity|].
  split; [reflexivity|]. split; [reflexivity|].
  apply (vec_poly_overwrites PrimFloat.mul heap22 heap22_used x22 res25);
    reflexivity.
Defined.

Lemma vec_poly_empty_input_witness :
  (nrows x02 = 0 ∨ ncols x02 = 0)
  ∧ vec_poly PrimFloat.mul x02 res25 heap02 = Done (tt, heap02).
Proof.
  split; [left; reflexivity|].
  apply (vec_poly_empty_input PrimFloat.mul heap02 x02 res25).
  left. reflexivity.
Defined.

Lemma vec_poly_larger_destination_witness :
  valid_call heap26 x22 res26 = true
  ∧ ∃ h', vec_poly PrimFloat.mul x22 res26 heap26 = Done (tt, h')
      ∧ (∀ k c, k < nrows x22 → c < n_feat (ncols x22) →
           is_Some (expected PrimFloat.mul heap26 x22 k c)
           ∧ entry h' res26 k c = expected PrimFloat.mul heap26 x22 k c)
      ∧ (∀ k c, ¬ (k < nrows x22 ∧ c < n_feat (ncols x22)) →
           entry h' res26 k c = entry heap26 res26 k c).
Proof.
  split; [reflexivity|].
  apply (vec_poly_larger_destination PrimFloat.mul heap26 x22 res26).
  reflexivity.
Defined.

Lemma vec_poly_layout_independent_witness :
  layout x22 = C_order ∧ layout x22F = F_order
  ∧ valid_call heap22 x22 res25 = true
  ∧ valid_call heap22F x22F res25F = true
  ∧ shape x22 = shape x22F
  ∧ rows heap22 x22 = rows heap22F x22F
  ∧ shape res25 = (nrows x22, n_feat (ncols x22))
  ∧ shape res25F = shape res25
  ∧ ∃ h1' h2', vec_poly PrimFloat.mul x22 res25 heap22 = Done (tt, h1')
      ∧ vec_poly PrimFloat.mul x22F res25F heap22F = Done (tt, h2')
      ∧ rows h1' res25 = rows h2' res25F.
Proof.
  do 8 (split; [reflexivity|]).
  apply (vec_poly_layout_independent PrimFloat.mul
           heap22 heap22F x22 x22F res25 res25F); reflexivity.
Defined.

Lemma vec_poly_input_unchanged_witness :
  valid_call heap22F x22F res25F = true
  ∧ ∃ h', vec_poly PrimFloat.mul x22F res25F heap22F = Done (tt, h')
      ∧ (∀ l, l ≠ data res25F → h' !! l = heap22F !! l)
      ∧ h' !! data x22F = heap22F !! data x22F
      ∧ rows h' x22F = rows heap22F x22F.
Proof.
  split; [reflexivity|].
  apply (vec_poly_input_unchanged PrimFloat.mul heap22F x22F res25F).
  reflexivity.
Defined.

Lemma vec_poly_accesses_in_bounds_witness :
  allocated heap22 x22 = true ∧ allocated heap22 res25 = true
  ∧ shape res25 = (nrows x22, n_feat (ncols x22))
  ∧ ∃ h', vec_poly PrimFloat.mul x22 res25 heap22 = Done (tt, h').
Proof.
  do 3 (split; [reflexivity|]).
  apply (vec_poly_accesses_in_bounds PrimFloat.mul heap22 x22 res25);
    reflexivity.
Defined.

(** ** What a completed run tells *)

Section Completed.

Context {T : Type}.

Lemma bind_done {A B : Type} (c : exec (T:=T) A) (f : A → exec B) h r :
  bind c f h = Done r → ∃ a h1, c h = Done (a, h1) ∧ f a h1 = Done r.
Proof.
  unfold bind. destruct (c h) as [[a h1]|]; [|done]. intros Hf. by exists a, h1.
Qed.

(** A loop that completes has kept every fact about its variable that each
    completed round keeps. *)
Lemma for_range_done {St : Type} (I : nat → St → Prop) (a b : nat)
    (body : nat → St → exec (T:=T) St) :
  a ≤ b →
  (∀ i s h s' h', a ≤ i → i < b → I i s → body i s h = Done (s', h') → I (i + 1) s') →
  ∀ s h s' h', I a s → for_in (range a b) body s h = Done (s', h') → I b s'.
Proof.
  unfold range. intros Hab Hbody.
  remember (b - a) as d eqn:Hd. revert a Hab Hd Hbody.
  induction d as [|d IH]; intros a Hab Hd Hbody s h s' h' Hs Hrun.
  - assert (a = b) as -> by lia. cbn in Hrun. unfold ret in Hrun. congruence.
  - cbn [seq for_in] in Hrun.
    apply bind_done in Hrun as (s1 & h1 & Hstep & Hrest).
    apply (IH (S a)) with (s := s1) (h := h1) (h' := h'); [lia|lia| | |done].
    + intros i s2 h2 s3 h3 Hi Hib. apply Hbody; lia.
    + rewrite <- Nat.add_1_r. by eapply Hbody; [| | |exact Hstep]; try lia.
Qed.

Lemma bind_run {A B : Type} (c : exec (T:=T) A) (f : A → exec B) h a h' :
  c h = Done (a, h') → bind c f h = f a h'.
Proof. unfold bind. by intros ->. Qed.

Lemma getitem1_done (h : gmap nat (list T)) v k r :
  getitem1 v k h = Done r → k < vlen v.
Proof. unfold getitem1. by destruct (Nat.ltb_spec k (vlen v)). Qed.

(** Every round of a completed loop has completed. *)
Lemma loop_done_each (m : nat) (body : nat → exec (T:=T) unit) h r :
  for_in (range 0 m) (λ k _, body k) tt h = Done r →
  ∀ k, k < m → ∃ h1 r1, body k h1 = Done r1.
Proof.
  intros Hrun. destruct r as [[] h'].
  refine (for_range_done (λ j _, ∀ k, k < j → ∃ h1 r1, body k h1 = Done r1)
            0 m _ _ _ tt h tt h' _ Hrun); [lia| |intros; lia].
  intros j [] h1 [] h2 _ Hj IH Hstep k Hk.
  destruct (decide (k = j)) as [->|Hne]; [by eauto|]. apply IH. lia.
Qed.

(** A run of the kernel on an input with a row and a column keeps all its
    accesses inside only in a destination of at least [m] rows and
    [n_feat n] columns. *)
Lemma vec_poly_done_bounds (mul : T → T → T) x res h r :
  vec_poly mul x res h = Done r →
  0 < nrows x → 0 < ncols x →
  nrows x ≤ nrows res ∧ n_feat (ncols x) ≤ ncols res.
Proof.
  unfold vec_poly, shape. intros Hrun Hm Hn.
  apply bind_done in Hrun as (s & h1 & Hloop & _).
  assert (s = block_start (ncols x) (ncols x)
          ∧ (0 < ncols x → nrows x ≤ nrows res ∧ s ≤ ncols res)) as [-> Hb].
  2:{ rewrite <- block_start_n_feat. by apply Hb. }
  refine (for_range_done
    (λ i s, s = block_start (ncols x) i
            ∧ (0 < i → nrows x ≤ nrows res ∧ s ≤ ncols res))
    0 (ncols x) _ _ _ 0 h s h1 _ Hloop); [lia| |split; [done|lia]].
  clear Hloop. intros i s0 h2 s' h' _ Hi [-> _] Hbody.
  apply bind_done in Hbody as (v1 & h3 & _ & Hbody).
  apply bind_done in Hbody as ([] & h4 & Hcopy & Hprod).
  destruct (loop_done_each _ _ _ _ Hcopy (nrows x - 1)) as (h8 & r8 & Hlast);
    [lia|].
  apply bind_done in Hlast as (e & h9 & _ & [Hrows Hc]%setitem2_done).
  assert (s' = block_start (ncols x) i + 1 + (ncols x - i) ∧ s' ≤ ncols res)
    as [-> Hle].
  2:{ replace (i + 1) with (S i) by lia. cbn [block_start].
      split; [lia|]. intros _. lia. }
  refine (for_range_done
    (λ j s, s = block_start (ncols x) i + 1 + (j - i) ∧ s ≤ ncols res)
    i (ncols x) _ _ _ _ h4 s' h' _ Hprod); [lia| |split; lia].
  intros j s1 h5 s2 h6 Hij Hj [-> _] Hstep.
  apply bind_done in Hstep as ([] & h7 & Hrowloop & Hret).
  unfold ret in Hret. injection Hret as <- _.
  destruct (loop_done_each _ _ _ _ Hrowloop (nrows x - 1)) as (h11 & r11 & Hlast');
    [lia|].
  apply bind_done in Hlast' as (e1 & h12 & _ & Hlast').
  apply bind_done in Hlast' as (e2 & h13 & _ & [_ Hlt]%setitem2_done). lia.
Qed.

End Completed.

(** ** Further properties of the kernel *)

Lemma block_decompose n m c :
  m ≤ n → c < block_start n m →
  ∃ i d, i < m ∧ d < 1 + (n - i) ∧ c = block_start n i + d.
Proof.
  intros Hm. induction m as [|m IH]; simpl; [lia|]. intros Hc.
  destruct (decide (c < block_start n m)) as [Hlt|Hge].
  - destruct IH as (i & d & Hi & Hd & ->); [lia|done|]. exists i, d. lia.
  - exists m, (c - block_start n m). lia.
Qed.

Lemma columns_lookup_inv n c f :
  columns n !! c = Some f →
  match f with
  | Copy i => i < n ∧ c = block_start n i
  | Prod i j => i ≤ j ∧ j < n ∧ c = block_start n i + 1 + (j - i)
  end.
Proof.
  intros Hf. pose proof (lookup_lt_Some _ _ _ Hf) as Hc.
  rewrite columns_length, <- block_start_n_feat in Hc.
  destruct (block_decompose n n c (le_n n) Hc) as (i & d & Hi & Hd & ->).
  destruct (columns_block n i d Hi) as [Hblock|]; [|lia].
  rewrite Hblock in Hf. unfold block, range in Hf.
  destruct d as [|d]; simpl in Hf.
  - injection Hf as <-. lia.
  - rewrite list_lookup_fmap, lookup_seq_lt in Hf by lia.
    injection Hf as <-. lia.
Qed.

Lemma columns_NoDup n : NoDup (columns n).
Proof.
  apply NoDup_alt. intros c c' f Hc Hc'.
  apply columns_lookup_inv in Hc, Hc'. destruct f; lia.
Qed.

Lemma columns_elem n f :
  f ∈ columns n ↔
  match f with
  | Copy i => i < n
  | Prod i j => i ≤ j ∧ j < n
  end.
Proof.
  split.
  - intros (c & Hc)%list_elem_of_lookup_1. apply columns_lookup_inv in Hc.
    destruct f; lia.
  - destruct f as [i|i j]; intros Hf.
    + eapply list_elem_of_lookup_2. by apply columns_copy.
    + eapply list_elem_of_lookup_2. apply columns_prod; lia.
Qed.

Section More.

Context {T : Type}.
Variable mul : T → T → T.

Lemma same_sizes_keeps_allocated (h h' : gmap nat (list T)) a :
  same_sizes h h' → allocated h a = true → allocated h' a = true.
Proof.
  intros Hs Ha. destruct (same_sizes_allocated h h' a Hs Ha) as (b & Hb & Hlen).
  unfold allocated. rewrite Hb. by apply Nat.leb_le.
Qed.

Lemma vec_poly_keeps_valid (h h' : gmap nat (list T)) x res :
  valid_call h x res = true → vec_poly mul x res h = Done (tt, h') →
  valid_call h' x res = true.
Proof.
  intros Hvalid Hrun.
  pose proof Hvalid as (Hax & Har & Hne & Hm & Hn)%valid_call_spec.
  destruct (vec_poly_in_bounds mul h x res Hax Har Hm Hn) as (h'' & Hrun' & Hs).
  assert (h'' = h') as -> by congruence.
  unfold valid_call in *.
  rewrite (same_sizes_keeps_allocated h h' x Hs Hax).
  rewrite (same_sizes_keeps_allocated h h' res Hs Har).
  by rewrite Hax, Har in Hvalid.
Qed.

(** X1. For arrays in the heap and an input with a row and a column, every
    element access of the kernel is inside its array exactly when the
    destination has at least [m] rows and [n_feat n] columns: in a smaller
    destination the kernel, which checks nothing, makes an access outside
    it. *)
Theorem vec_poly_in_shape_iff (h : gmap nat (list T)) x res :
  allocated h x = true → allocated h res = true →
  0 < nrows x → 0 < ncols x →
  (in_shape (vec_poly mul x res) h
     ↔ nrows x ≤ nrows res ∧ n_feat (ncols x) ≤ ncols res).
Proof.
  intros Hax Har Hm Hn. split.
  - intros (r & Hrun). by eapply vec_poly_done_bounds.
  - intros [Hrows Hcols].
    destruct (vec_poly_in_bounds mul h x res Hax Har Hrows Hcols)
      as (h' & Hrun & _). by exists (tt, h').
Qed.

(** X2. Calling the kernel a second time on the same arrays changes
    nothing: the destination, the input and every other buffer are as after
    the first call. *)
Theorem vec_poly_twice (h : gmap nat (list T)) x res :
  valid_call h x res = true →
  ∃ h1 h2, vec_poly mul x res h = Done (tt, h1)
    ∧ vec_poly mul x res h1 = Done (tt, h2)
    ∧ rows h2 res = rows h1 res
    ∧ rows h2 x = rows h1 x
    ∧ ∀ l, l ≠ data res → h2 !! l = h1 !! l.
Proof.
  intros Hvalid.
  destruct (vec_poly_valid mul h x res Hvalid)
    as (h1 & Hrun1 & Hframe1 & Hin1 & _).
  pose proof (vec_poly_keeps_valid h h1 x res Hvalid Hrun1) as Hvalid1.
  destruct (vec_poly_valid mul h1 x res Hvalid1)
    as (h2 & Hrun2 & Hframe2 & Hin2 & Hout2).
  apply valid_call_spec in Hvalid as (_ & _ & Hne & _).
  exists h1, h2. split; [done|]. split; [done|]. split; [|split; [|done]].
  - apply rows_ext; [done|]. intros k c _ _.
    destruct (decide (k < nrows x ∧ c < n_feat (ncols x))) as [[Hk Hc]|Hout].
    + rewrite Hin2, Hin1 by done. apply expected_ext; [done|].
      apply rows_same_buffer. by apply Hframe1.
    + by apply Hout2.
  - apply rows_same_buffer. by apply Hframe2.
Qed.

(** X3. The output columns are the [n] input columns and the products of
    the [n*(n+1)/2] pairs [i <= j], each of them in exactly one column. *)
Theorem vec_poly_features_once (h : gmap nat (list T)) x res :
  valid_call h x res = true →
  ∃ h' feats, vec_poly mul x res h = Done (tt, h')
    ∧ length feats = n_feat (ncols x)
    ∧ NoDup feats
    ∧ (∀ f, f ∈ feats ↔ match f with
                         | Copy i => i < ncols x
                         | Prod i j => i ≤ j ∧ j < ncols x
                         end)
    ∧ ∀ k c f, k < nrows x → feats !! c = Some f →
        ∃ v, feature_value mul h x k f = Some v ∧ entry h' res k c = Some v.
Proof.
  intros Hvalid.
  destruct (vec_poly_valid mul h x res Hvalid) as (h' & Hrun & _ & Hin & _).
  exists h', (columns (ncols x)). split; [done|].
  split; [apply columns_length|]. split; [apply columns_NoDup|].
  split; [apply columns_elem|]. intros k c f Hk Hf.
  apply valid_call_spec in Hvalid as (Hax & _).
  destruct (feature_value_allocated mul h x k c f Hax Hk Hf) as [v Hv].
  exists v. split; [done|]. rewrite Hin; [|done|].
  - unfold expected. by rewrite Hf.
  - rewrite <- columns_length. by eapply lookup_lt_Some.
Qed.

(** X4. A row of the output depends on the same row of the input only:
    two inputs of the same width that agree on a row, at whatever positions,
    get the same output row. *)
Theorem vec_poly_row_local (h1 h2 : gmap nat (list T)) x1 x2 res1 res2 k1 k2 :
  valid_call h1 x1 res1 = true → valid_call h2 x2 res2 = true →
  ncols x1 = ncols x2 → k1 < nrows x1 → k2 < nrows x2 →
  (∀ j, j < ncols x1 → entry h1 x1 k1 j = entry h2 x2 k2 j) →
  ∃ h1' h2', vec_poly mul x1 res1 h1 = Done (tt, h1')
    ∧ vec_poly mul x2 res2 h2 = Done (tt, h2')
    ∧ ∀ c, c < n_feat (ncols x1) → entry h1' res1 k1 c = entry h2' res2 k2 c.
Proof.
  intros Hv1 Hv2 Hcols Hk1 Hk2 Hrow.
  destruct (vec_poly_valid mul h1 x1 res1 Hv1) as (h1' & Hrun1 & _ & Hin1 & _).
  destruct (vec_poly_valid mul h2 x2 res2 Hv2) as (h2' & Hrun2 & _ & Hin2 & _).
  exists h1', h2'. split; [done|]. split; [done|]. intros c Hc.
  rewrite Hin1, Hin2 by (rewrite <- ?Hcols; done).
  unfold expected. rewrite <- Hcols.
  destruct (columns (ncols x1) !! c) as [f|] eqn:Hf; [|done]. simpl.
  apply columns_in_range in Hf. destruct f as [i|i j]; simpl.
  - apply Hrow. lia.
  - rewrite !Hrow by lia. done.
Qed.

End More.

(** ** The cells that allocate and fill the feature matrices *)

Section CellsProofs.

Context {T : Type}.
Variable zero : T.
Variable mul : T → T → T.

Lemma allocated_intro (h : gmap nat (list T)) a b :
  h !! data a = Some b → nrows a * ncols a ≤ length b → allocated h a = true.
Proof. intros Hb Hlen. unfold allocated. rewrite Hb. by apply Nat.leb_le. Qed.

Lemma valid_call_intro (h : gmap nat (list T)) x res :
  allocated h x = true → allocated h res = true → data x ≠ data res →
  nrows x ≤ nrows res → n_feat (ncols x) ≤ ncols res →
  valid_call h x res = true.
Proof.
  intros Hax Har Hne Hm Hn. unfold valid_call. rewrite Hax, Har. simpl.
  rewrite !andb_true_iff, negb_true_iff, Nat.eqb_neq, !Nat.leb_le. done.
Qed.

Lemma allocated_same_buffer (h h' : gmap nat (list T)) a :
  h' !! data a = h !! data a → allocated h a = true → allocated h' a = true.
Proof. unfold allocated. by intros ->. Qed.

Lemma entry_same_buffer (h h' : gmap nat (list T)) a k c :
  h' !! data a = h !! data a → entry h' a k c = entry h a k c.
Proof. unfold entry. by intros ->. Qed.

Lemma allocated_in_heap (h : gmap nat (list T)) a :
  allocated h a = true → is_Some (h !! data a).
Proof. intros (b & Hb & _)%allocated_spec. by exists b. Qed.

Lemma fresh_not_in_heap (h : gmap nat (list T)) : h !! fresh (dom h) = None.
Proof. apply not_elem_of_dom, is_fresh. Qed.

Lemma entry_zeros (h : gmap nat (list T)) a k c :
  h !! data a = Some (replicate (nrows a * ncols a) zero) →
  k < nrows a → c < ncols a → entry h a k c = Some zero.
Proof.
  intros Hb Hk Hc. unfold entry.
  destruct (Nat.ltb_spec k (nrows a)); [|lia].
  destruct (Nat.ltb_spec c (ncols a)); [|lia].
  rewrite Hb. simpl. apply lookup_replicate_2. by apply flat_index_lt.
Qed.

(** X5. The cells that size and fill the two feature matrices always make
    valid calls: for a training and a test matrix of the same width, with
    [len(y_test)] at least the rows of the test matrix, they complete, leave
    every existing buffer as it was, and return two new column-major arrays
    that hold the features of the two matrices; rows of [test_feat] past
    those of the test matrix stay zero. *)
Theorem feature_cells_valid (h : gmap nat (list T)) trn test len_y_test :
  allocated h trn = true → allocated h test = true →
  ncols test = ncols trn → nrows test ≤ len_y_test →
  ∃ trn_feat test_feat h',
    feature_cells zero mul trn test len_y_test h = Done ((trn_feat, test_feat), h')
    ∧ trn_feat = mk_ndarray (data trn_feat) (nrows trn) (n_feat (ncols trn)) F_order
    ∧ test_feat = mk_ndarray (data test_feat) len_y_test (n_feat (ncols trn)) F_order
    ∧ h !! data trn_feat = None ∧ h !! data test_feat = None
    ∧ data trn_feat ≠ data test_feat
    ∧ (∀ l, is_Some (h !! l) → h' !! l = h !! l)
    ∧ (∀ k c, k < nrows trn → c < n_feat (ncols trn) →
         entry h' trn_feat k c = expected mul h trn k c)
    ∧ (∀ k c, k < nrows test → c < n_feat (ncols trn) →
         entry h' test_feat k c = expected mul h test k c)
    ∧ (∀ k c, nrows test ≤ k → k < len_y_test → c < n_feat (ncols trn) →
         entry h' test_feat k c = Some zero).
Proof.
  intros Hatrn Hatest Hcols Hrows.
  set (nf := n_feat (ncols trn)).
  set (l1 := fresh (dom h)).
  set (h1 := <[l1 := replicate (nrows trn * nf) zero]> h).
  set (l2 := fresh (dom h1)).
  set (h2 := <[l2 := replicate (len_y_test * nf) zero]> h1).
  set (trn_feat := mk_ndarray l1 (nrows trn) nf F_order).
  set (test_feat := mk_ndarray l2 len_y_test nf F_order).
  assert (h !! l1 = None) as Hl1 by apply fresh_not_in_heap.
  assert (h1 !! l2 = None) as Hl2 by apply fresh_not_in_heap.
  assert (l2 ≠ l1) as Hl21.
  { intros Heq. unfold h1 in Hl2. by rewrite Heq, lookup_insert_eq in Hl2. }
  assert (h !! l2 = None) as Hl2'.
  { unfold h1 in Hl2. by rewrite lookup_insert_ne in Hl2. }
  assert (∀ l, is_Some (h !! l) → l ≠ l1 ∧ l ≠ l2) as Hold.
  { intros l [b Hb]. split; intros ->; congruence. }
  assert (∀ l, is_Some (h !! l) → h2 !! l = h !! l) as Hkeep2.
  { intros l [Hn1 Hn2]%Hold. unfold h2, h1. by rewrite !lookup_insert_ne. }
  assert (h2 !! l1 = Some (replicate (nrows trn * nf) zero)) as Hb1.
  { unfold h2, h1. by rewrite lookup_insert_ne, lookup_insert_eq. }
  assert (h2 !! l2 = Some (replicate (len_y_test * nf) zero)) as Hb2.
  { unfold h2. by rewrite lookup_insert_eq. }
  pose proof (allocated_in_heap h trn Hatrn) as Htrn.
  pose proof (allocated_in_heap h test Hatest) as Htest.
  assert (valid_call h2 trn trn_feat = true) as Hv1.
  { apply valid_call_intro; simpl; try done.
    - apply (allocated_same_buffer h); [by apply Hkeep2|done].
    - eapply allocated_intro; [exact Hb1|]. simpl. by rewrite length_replicate.
    - by apply Hold. }
  destruct (vec_poly_valid mul h2 trn trn_feat Hv1)
    as (h3 & Hrun1 & Hframe1 & Hin1 & _).
  assert (valid_call h3 test test_feat = true) as Hv2.
  { apply valid_call_intro; simpl; try done.
    - apply (allocated_same_buffer h); [|done].
      rewrite Hframe1 by (by apply Hold). by apply Hkeep2.
    - eapply allocated_intro; [by rewrite Hframe1|].
      simpl. by rewrite length_replicate.
    - by apply Hold.
    - unfold nf. by rewrite Hcols. }
  destruct (vec_poly_valid mul h3 test test_feat Hv2)
    as (h4 & Hrun2 & Hframe2 & Hin2 & Hout2).
  exists trn_feat, test_feat, h4. split.
  { unfold feature_cells, shape, bind, zeros. fold nf l1 h1 l2 h2 trn_feat test_feat.
    by rewrite Hrun1, Hrun2. }
  split; [done|]. split; [done|]. split; [done|]. split; [done|].
  split; [simpl; congruence|]. split; [|split; [|split]].
  - intros l Hl. destruct (Hold l Hl) as [Hn1 Hn2].
    rewrite Hframe2, Hframe1 by done. by apply Hkeep2.
  - intros k c Hk Hc.
    rewrite (entry_same_buffer h3 h4) by (apply Hframe2; simpl; congruence).
    rewrite Hin1 by done. apply expected_ext; [done|].
    apply rows_same_buffer. by apply Hkeep2.
  - intros k c Hk Hc. rewrite Hin2 by (rewrite ?Hcols; done).
    apply expected_ext; [done|]. apply rows_same_buffer.
    rewrite Hframe1 by (by apply Hold). by apply Hkeep2.
  - intros k c Hk Hk' Hc. rewrite Hout2 by lia.
    apply entry_zeros; [|done|done]. simpl. by rewrite Hframe1.
Qed.

End CellsProofs.

(** ** The loops of the speed comparison *)

Section Views.

Context {T : Type}.

Lemma offset_inj (v : view) k k' :
  0 < vstep v → offset v k = offset v k' → k = k'.
Proof. unfold offset. intros Hs Heq. nia. Qed.

Lemma backed_spec (h : gmap nat (list T)) v k :
  backed h v = true → k < vlen v →
  ∃ b, h !! vdata v = Some b ∧ 0 < vstep v ∧ offset v k < length b.
Proof.
  unfold backed. destruct (h !! vdata v) as [b|]; [|done].
  intros Hb Hk. exists b. split; [done|].
  apply orb_true_iff in Hb as [Hz%Nat.eqb_eq|Hb]; [lia|].
  apply andb_true_iff in Hb as [Hs%Nat.ltb_lt Hl%Nat.ltb_lt].
  split; [done|]. unfold offset in *. nia.
Qed.

Lemma item_backed (h : gmap nat (list T)) v k :
  backed h v = true → k < vlen v → is_Some (item h v k).
Proof.
  intros Hb Hk. destruct (backed_spec h v k Hb Hk) as (b & Hbuf & _ & Hlt).
  unfold item. destruct (Nat.ltb_spec k (vlen v)); [|lia].
  rewrite Hbuf. simpl. by apply lookup_lt_is_Some_2.
Qed.

Lemma backed_same_buffer (h h' : gmap nat (list T)) v :
  h' !! vdata v = h !! vdata v → backed h v = true → backed h' v = true.
Proof. unfold backed. by intros ->. Qed.

Lemma item_same_buffer (h h' : gmap nat (list T)) v k :
  h' !! vdata v = h !! vdata v → item h' v k = item h v k.
Proof. unfold item. by intros ->. Qed.

Lemma setitem1_done (astype : T → T) (h : gmap nat (list T)) v k e r :
  setitem1 astype v k e h = Done r → k < vlen v.
Proof. unfold setitem1. by destruct (Nat.ltb_spec k (vlen v)). Qed.

End Views.

Section ProcsProofs.

Context {T : Type}.
Variables add sub mul : T → T → T.
Variables two fifty_five ninety_nine point88 : T.
Variable zero : T.
Variable astype : T → T.
Variable nobs : nat.

Local Abbreviation formula' :=
  (formula add sub mul two fifty_five ninety_nine point88).
Local Abbreviation proc_inv' :=
  (proc_inv add sub mul two fifty_five ninety_nine point88 astype).

Section Loop.

Variables (h0 : gmap nat (list T)) (xx yy zz : view).

Hypothesis Hbx : backed h0 xx = true.
Hypothesis Hby : backed h0 yy = true.
Hypothesis Hbz : backed h0 zz = true.
Hypothesis Hlx : nobs ≤ vlen xx.
Hypothesis Hly : nobs ≤ vlen yy.
Hypothesis Hlz : nobs ≤ vlen zz.
Hypothesis Hcx : apart_or_same xx zz.
Hypothesis Hcy : apart_or_same yy zz.

Lemma proc_inv_read v j h :
  apart_or_same v zz → backed h0 v = true → nobs ≤ vlen v → j < nobs →
  proc_inv' h0 xx yy zz j h →
  ∃ e, getitem1 v j h = Done (e, h) ∧ item h0 v j = Some e.
Proof.
  intros Hc Hb Hl Hj (b & bz & Hz & -> & Hlen & Hdone & Hrest).
  destruct (backed_spec h0 v j Hb) as (bv & Hv & Hs & Hlt); [lia|].
  destruct (lookup_lt_is_Some_2 bv (offset v j) Hlt) as [e He].
  exists e.
  assert (item h0 v j = Some e) as Hitem.
  { unfold item. destruct (Nat.ltb_spec j (vlen v)); [|lia].
    rewrite Hv. simpl. done. }
  split; [|done]. unfold getitem1. fold (offset v j).
  destruct (Nat.ltb_spec j (vlen v)); [|lia].
  destruct Hc as [Hne| ->].
  - rewrite lookup_insert_ne by done. rewrite Hv. simpl. by rewrite He.
  - rewrite lookup_insert_eq. simpl.
    assert (bv = bz) as -> by congruence.
    rewrite Hrest, He; [done|].
    intros k Hk Heq. apply offset_inj in Heq; [lia|done].
Qed.

Lemma proc_inv_write j h x y :
  j < nobs → item h0 xx j = Some x → item h0 yy j = Some y →
  proc_inv' h0 xx yy zz j h →
  ∃ h', setitem1 astype zz j (formula' x y) h = Done (tt, h')
        ∧ proc_inv' h0 xx yy zz (j + 1) h'.
Proof.
  intros Hj Hx Hy (b & bz & Hz & -> & Hlen & Hdone & Hrest).
  destruct (backed_spec h0 zz j Hbz) as (bz' & Hz' & Hs & Hlt); [lia|].
  assert (bz' = bz) as -> by congruence.
  exists (<[vdata zz := <[offset zz j := astype (formula' x y)]> b]> h0).
  split.
  - unfold setitem1. destruct (Nat.ltb_spec j (vlen zz)); [|lia].
    rewrite lookup_insert_eq.
    destruct (Nat.ltb_spec (offset zz j) (length b)); [|lia].
    by rewrite insert_insert_eq.
  - exists (<[offset zz j := astype (formula' x y)]> b), bz.
    split; [done|]. split; [done|]. split; [by rewrite length_insert|]. split.
    + intros k Hk. destruct (decide (k = j)) as [->|Hne].
      * rewrite list_lookup_insert_eq by lia.
        unfold computed. by rewrite Hx, Hy.
      * rewrite list_lookup_insert_ne; [apply Hdone; lia|].
        intros Heq. apply offset_inj in Heq; [lia|done].
    + intros a Ha. rewrite list_lookup_insert_ne; [apply Hrest|].
      * intros k Hk. apply Ha. lia.
      * intros Heq. apply (Ha j); [lia|done].
Qed.

Lemma proc_inv_start : proc_inv' h0 xx yy zz 0 h0.
Proof.
  unfold backed in Hbz. destruct (h0 !! vdata zz) as [bz|] eqn:Hz; [|done].
  exists bz, bz. split; [done|]. split; [by rewrite insert_id|].
  split; [done|]. split; [intros; lia|done].
Qed.

(** The loop that the two functions share. *)
Lemma proc_loop :
  ∃ h', for_in (range 0 nobs) (λ j _,
          bind (getitem1 xx j) (λ x,
            bind (getitem1 yy j) (λ y,
              let x := sub (mul x two) (mul y fifty_five) in
              let y := add x (mul y two) in
              let z := add (add x y) ninety_nine in
              let z := mul z (sub z point88) in
              setitem1 astype zz j z))) tt h0 = Done (tt, h')
        ∧ proc_inv' h0 xx yy zz nobs h'.
Proof.
  destruct (triple_for_range (λ j _ h, proc_inv' h0 xx yy zz j h) 0 nobs
              (λ j _, bind (getitem1 xx j) (λ x, bind (getitem1 yy j) (λ y,
                 setitem1 astype zz j (formula' x y))))) with (s := tt) (h := h0)
    as ([] & h' & Hrun & Hinv); [lia| |apply proc_inv_start|by exists h'].
  intros j [] _ Hj h Hh.
  destruct (proc_inv_read xx j h Hcx Hbx Hlx Hj Hh) as (x & Hrx & Hx).
  destruct (proc_inv_read yy j h Hcy Hby Hly Hj Hh) as (y & Hry & Hy).
  destruct (proc_inv_write j h x y Hj Hx Hy Hh) as (h' & Hw & Hinv).
  exists tt, h'. split; [|done]. unfold bind. by rewrite Hrx, Hry.
Qed.

Lemma proc_inv_values j h :
  j < nobs → proc_inv' h0 xx yy zz nobs h →
  ∃ x y, item h0 xx j = Some x ∧ item h0 yy j = Some y
         ∧ item h zz j = Some (astype (formula' x y)).
Proof.
  intros Hj (b & bz & Hz & -> & Hlen & Hdone & Hrest).
  destruct (item_backed h0 xx j Hbx) as [x Hx]; [lia|].
  destruct (item_backed h0 yy j Hby) as [y Hy]; [lia|].
  exists x, y. split; [done|]. split; [done|].
  unfold item. destruct (Nat.ltb_spec j (vlen zz)); [|lia].
  rewrite lookup_insert_eq. simpl. rewrite Hdone by done.
  unfold computed. by rewrite Hx, Hy.
Qed.

Lemma proc_inv_frame h :
  proc_inv' h0 xx yy zz nobs h →
  (∀ l, l ≠ vdata zz → h !! l = h0 !! l)
  ∧ (∀ j, nobs ≤ j → item h zz j = item h0 zz j).
Proof.
  intros (b & bz & Hz & -> & Hlen & Hdone & Hrest). split.
  - intros l Hl. by rewrite lookup_insert_ne.
  - intros j Hj. unfold item. destruct (Nat.ltb_spec j (vlen zz)); [|done].
    rewrite lookup_insert_eq, Hz. simpl. apply Hrest.
    destruct (backed_spec h0 zz j Hbz) as (_ & _ & Hs & _); [done|].
    intros k Hk Heq. apply offset_inj in Heq; [lia|done].
Qed.

End Loop.

End ProcsProofs.

Section ProcsProperties.

Context {T : Type}.
Variables add sub mul : T → T → T.
Variables two fifty_five ninety_nine point88 : T.
Variable zero : T.
Variable astype : T → T.
Variable nobs : nat.

Local Abbreviation formula' :=
  (formula add sub mul two fifty_five ninety_nine point88).
Local Abbreviation proc_numba' :=
  (proc_numba add sub mul two fifty_five ninety_nine point88 astype nobs).
Local Abbreviation proc_python' :=
  (proc_python add sub mul two fifty_five ninety_nine point88 zero astype nobs).

(** X6. With arrays of at least [nobs] elements, [proc_numba] completes and
    returns the output array it was given, whose element [j], for [j < nobs],
    is the formula of [xx[j]] and [yy[j]] as they were before the call,
    converted to the array's element type.  The output may be one of the
    inputs: the call then works in place. *)
Theorem proc_numba_values (h : gmap nat (list T)) xx yy zz :
  backed h xx = true → backed h yy = true → backed h zz = true →
  nobs ≤ vlen xx → nobs ≤ vlen yy → nobs ≤ vlen zz →
  apart_or_same xx zz → apart_or_same yy zz →
  ∃ h', proc_numba' xx yy zz h = Done (zz, h')
    ∧ ∀ j, j < nobs →
        ∃ x y, item h xx j = Some x ∧ item h yy j = Some y
          ∧ item h' zz j = Some (astype (formula' x y)).
Proof.
  intros Hbx Hby Hbz Hlx Hly Hlz Hcx Hcy.
  destruct (proc_loop add sub mul two fifty_five ninety_nine point88 astype nobs
              h xx yy zz Hbx Hby Hbz Hlx Hly Hlz Hcx Hcy) as (h' & Hrun & Hinv).
  exists h'. split.
  - unfold proc_numba. by rewrite (bind_run _ _ _ _ _ Hrun).
  - intros j Hj. by eapply proc_inv_values.
Qed.

(** X7. [proc_numba] writes the first [nobs] elements of its output and
    nothing else: the other elements of the output and every other buffer are
    as before the call. *)
Theorem proc_numba_frame (h : gmap nat (list T)) xx yy zz :
  backed h xx = true → backed h yy = true → backed h zz = true →
  nobs ≤ vlen xx → nobs ≤ vlen yy → nobs ≤ vlen zz →
  apart_or_same xx zz → apart_or_same yy zz →
  ∃ h', proc_numba' xx yy zz h = Done (zz, h')
    ∧ (∀ l, l ≠ vdata zz → h' !! l = h !! l)
    ∧ (∀ j, nobs ≤ j → item h' zz j = item h zz j).
Proof.
  intros Hbx Hby Hbz Hlx Hly Hlz Hcx Hcy.
  destruct (proc_loop add sub mul two fifty_five ninety_nine point88 astype nobs
              h xx yy zz Hbx Hby Hbz Hlx Hly Hlz Hcx Hcy) as (h' & Hrun & Hinv).
  exists h'. split.
  - unfold proc_numba. by rewrite (bind_run _ _ _ _ _ Hrun).
  - apply (proc_inv_frame add sub mul two fifty_five ninety_nine point88
             astype nobs h xx yy zz Hbz Hlx Hly Hlz h' Hinv).
Qed.

Lemma proc_python_runs (h : gmap nat (list T)) xx yy :
  backed h xx = true → backed h yy = true →
  nobs ≤ vlen xx → nobs ≤ vlen yy →
  ∃ zz h', proc_python' xx yy h = Done (zz, h')
    ∧ zz = mk_view (vdata zz) 0 1 nobs
    ∧ h !! vdata zz = None
    ∧ (∀ l, is_Some (h !! l) → h' !! l = h !! l)
    ∧ length (items h' zz) = nobs
    ∧ ∀ j, j < nobs →
        ∃ x y, item h xx j = Some x ∧ item h yy j = Some y
          ∧ item h' zz j = Some (astype (formula' x y)).
Proof.
  intros Hbx Hby Hlx Hly.
  set (l := fresh (dom h)).
  set (h1 := <[l := replicate nobs zero]> h).
  set (zz := mk_view l 0 1 nobs).
  assert (h !! l = None) as Hl by apply fresh_not_in_heap.
  assert (∀ v, backed h v = true → vdata v ≠ l) as Hapart.
  { intros v Hv Heq. unfold backed in Hv. by rewrite Heq, Hl in Hv. }
  assert (∀ v, backed h v = true → h1 !! vdata v = h !! vdata v) as Hsame.
  { intros v Hv. unfold h1. rewrite lookup_insert_ne; [done|].
    intros Heq. by apply (Hapart v). }
  assert (backed h1 zz = true) as Hbz.
  { unfold backed, h1, zz, offset. simpl. rewrite lookup_insert_eq.
    rewrite length_replicate. destruct nobs as [|n]; [done|].
    simpl. apply Nat.ltb_lt. lia. }
  destruct (proc_loop add sub mul two fifty_five ninety_nine point88 astype nobs
              h1 xx yy zz) as (h' & Hrun & Hinv); try done.
  { by apply (backed_same_buffer h), Hbx; apply Hsame. }
  { by apply (backed_same_buffer h), Hby; apply Hsame. }
  { left. by apply Hapart. }
  { left. by apply Hapart. }
  exists zz, h'. split.
  { unfold proc_python.
    rewrite (bind_run _ _ h zz h1) by done.
    by rewrite (bind_run _ _ _ _ _ Hrun). }
  split; [done|]. split; [done|].
  assert (backed h1 xx = true) as Hbx1
    by (by apply (backed_same_buffer h), Hbx; apply Hsame).
  assert (backed h1 yy = true) as Hby1
    by (by apply (backed_same_buffer h), Hby; apply Hsame).
  split; [|split].
  - intros l' [b Hb].
    destruct (proc_inv_frame add sub mul two fifty_five ninety_nine point88
                astype nobs h1 xx yy zz Hbz Hlx Hly (le_n nobs) h' Hinv)
      as [Hframe _].
    rewrite Hframe by (simpl; congruence).
    unfold h1. rewrite lookup_insert_ne; [done|congruence].
  - unfold items, range. by rewrite length_fmap, length_seq, Nat.sub_0_r.
  - intros j Hj.
    destruct (proc_inv_values add sub mul two fifty_five ninety_nine point88
                astype nobs h1 xx yy zz Hbx1 Hby1 Hlx Hly (le_n nobs) j h' Hj Hinv)
      as (x & y & Hx & Hy & Hz).
    exists x, y. rewrite <- (item_same_buffer h h1 xx j) by (by apply Hsame).
    rewrite <- (item_same_buffer h h1 yy j) by (by apply Hsame). done.
Qed.


(** X8. With inputs of at least [nobs] elements, [proc_python] completes
    and returns a new array of exactly [nobs] elements, element [j] being the
    formula of [xx[j]] and [yy[j]] converted to the array's element type;
    elements of the inputs from [nobs] on are ignored, and every existing
    buffer is as before the call. *)
Theorem proc_python_values (h : gmap nat (list T)) xx yy :
  backed h xx = true → backed h yy = true →
  nobs ≤ vlen xx → nobs ≤ vlen yy →
  ∃ zz h', proc_python' xx yy h = Done (zz, h')
    ∧ zz = mk_view (vdata zz) 0 1 nobs
    ∧ h !! vdata zz = None
    ∧ (∀ l, is_Some (h !! l) → h' !! l = h !! l)
    ∧ length (items h' zz) = nobs
    ∧ ∀ j, j < nobs →
        ∃ x y, item h xx j = Some x ∧ item h yy j = Some y
          ∧ item h' zz j = Some (astype (formula' x y)).
Proof. apply proc_python_runs. Qed.

(** X9. For inputs in the heap, [proc_python] completes exactly when both
    have at least [nobs] elements; with a shorter one it ends in an index
    outside the input. *)
Theorem proc_python_completes_iff (h : gmap nat (list T)) xx yy :
  backed h xx = true → backed h yy = true →
  ((∃ zz h', proc_python' xx yy h = Done (zz, h'))
     ↔ nobs ≤ vlen xx ∧ nobs ≤ vlen yy)
  ∧ (proc_python' xx yy h = OutOfBounds
     ↔ vlen xx < nobs ∨ vlen yy < nobs).
Proof.
  intros Hbx Hby.
  assert ((∃ zz h', proc_python' xx yy h = Done (zz, h'))
          ↔ nobs ≤ vlen xx ∧ nobs ≤ vlen yy) as Hiff.
  { split.
    - intros (zz & h' & Hrun). unfold proc_python in Hrun.
      apply bind_done in Hrun as (zz' & h1 & _ & Hrun).
      apply bind_done in Hrun as ([] & h2 & Hloop & _).
      destruct (decide (nobs = 0)) as [->|Hpos]; [lia|].
      destruct (loop_done_each _ _ _ _ Hloop (nobs - 1)) as (h3 & r & Hlast);
        [lia|].
      apply bind_done in Hlast as (x & h4 & Hx%getitem1_done & Hlast).
      apply bind_done in Hlast as (y & h5 & Hy%getitem1_done & _). lia.
    - intros [Hlx Hly].
      destruct (proc_python_runs h xx yy Hbx Hby Hlx Hly) as (zz & h' & Hrun & _).
      by exists zz, h'. }
  split; [done|]. split.
  - intros Hout. destruct (decide (nobs ≤ vlen xx ∧ nobs ≤ vlen yy)) as [Hok|]; [|lia].
    apply Hiff in Hok as (zz & h' & Hrun). congruence.
  - intros Hshort.
    destruct (proc_python' xx yy h) as [[zz h']|] eqn:Hrun; [|done].
    assert (nobs ≤ vlen xx ∧ nobs ≤ vlen yy) by (apply Hiff; by exists zz, h').
    lia.
Qed.

(** X10. For arrays in the heap, the output apart from each input or the
    input itself, every element access of [proc_numba] is inside its array
    exactly when the two inputs and the output have at least [nobs]
    elements: with a shorter one the loop, which checks nothing, reads or
    writes past its end. *)
Theorem proc_numba_in_shape_iff (h : gmap nat (list T)) xx yy zz :
  backed h xx = true → backed h yy = true → backed h zz = true →
  apart_or_same xx zz → apart_or_same yy zz →
  (in_shape (proc_numba' xx yy zz) h
     ↔ nobs ≤ vlen xx ∧ nobs ≤ vlen yy ∧ nobs ≤ vlen zz).
Proof.
  intros Hbx Hby Hbz Hcx Hcy. split.
  - intros (r & Hrun). unfold proc_numba in Hrun.
    apply bind_done in Hrun as ([] & h2 & Hloop & _).
    destruct (decide (nobs = 0)) as [->|Hpos]; [lia|].
    destruct (loop_done_each _ _ _ _ Hloop (nobs - 1)) as (h3 & r' & Hlast);
      [lia|].
    apply bind_done in Hlast as (x & h4 & Hx%getitem1_done & Hlast).
    apply bind_done in Hlast as (y & h5 & Hy%getitem1_done & Hz%setitem1_done).
    lia.
  - intros (Hlx & Hly & Hlz).
    destruct (proc_loop add sub mul two fifty_five ninety_nine point88 astype
                nobs h xx yy zz Hbx Hby Hbz Hlx Hly Hlz Hcx Hcy)
      as (h' & Hrun & _).
    exists (zz, h'). unfold proc_numba. by rewrite (bind_run _ _ _ _ _ Hrun).
Qed.

End ProcsProperties.

(** ** The further properties at concrete inputs *)

Lemma vec_poly_in_shape_iff_witness :
  allocated heap22 x22 = true ∧ allocated heap22 res25 = true
  ∧ 0 < nrows x22 ∧ 0 < ncols x22
  ∧ (in_shape (vec_poly PrimFloat.mul x22 res25) heap22
       ↔ nrows x22 ≤ nrows res25 ∧ n_feat (ncols x22) ≤ ncols res25).
Proof.
  split; [reflexivity|]. split; [reflexivity|].
  split; [simpl; lia|]. split; [simpl; lia|].
  apply (vec_poly_in_shape_iff PrimFloat.mul heap22 x22 res25);
    [reflexivity|reflexivity|simpl; lia|simpl; lia].
Defined.

Lemma vec_poly_twice_witness :
  valid_call heap22 x22 res25 = true
  ∧ ∃ h1 h2, vec_poly PrimFloat.mul x22 res25 heap22 = Done (tt, h1)
      ∧ vec_poly PrimFloat.mul x22 res25 h1 = Done (tt, h2)
      ∧ rows h2 res25 = rows h1 res25
      ∧ rows h2 x22 = rows h1 x22
      ∧ ∀ l, l ≠ data res25 → h2 !! l = h1 !! l.
Proof.
  split; [reflexivity|].
  apply (vec_poly_twice PrimFloat.mul heap22 x22 res25). reflexivity.
Defined.

Lemma vec_poly_features_once_witness :
  valid_call heap22F x22F res25F = true
  ∧ ∃ h' feats, vec_poly PrimFloat.mul x22F res25F heap22F = Done (tt, h')
      ∧ length feats = n_feat (ncols x22F)
      ∧ NoDup feats
      ∧ (∀ f, f ∈ feats ↔ match f with
                           | Copy i => i < ncols x22F
                           | Prod i j => i ≤ j ∧ j < ncols x22F
                           end)
      ∧ ∀ k c f, k < nrows x22F → feats !! c = Some f →
          ∃ v, feature_value PrimFloat.mul heap22F x22F k f = Some v
               ∧ entry h' res25F k c = Some v.
Proof.
  split; [reflexivity|].
  apply (vec_poly_features_once PrimFloat.mul heap22F x22F res25F). reflexivity.
Defined.

Lemma vec_poly_row_local_witness :
  valid_call heap22 x22 res25 = true ∧ valid_call heap_row x12 res25 = true
  ∧ ncols x22 = ncols x12 ∧ 1 < nrows x22 ∧ 0 < nrows x12
  ∧ (∀ j, j < ncols x22 → entry heap22 x22 1 j = entry heap_row x12 0 j)
  ∧ ∃ h1' h2', vec_poly PrimFloat.mul x22 res25 heap22 = Done (tt, h1')
      ∧ vec_poly PrimFloat.mul x12 res25 heap_row = Done (tt, h2')
      ∧ ∀ c, c < n_feat (ncols x22) → entry h1' res25 1 c = entry h2' res25 0 c.
Proof.
  assert (∀ j, j < ncols x22 → entry heap22 x22 1 j = entry heap_row x12 0 j)
    as Hrow.
  { intros j Hj. destruct j as [|[|j]]; [reflexivity|reflexivity|simpl in Hj; lia]. }
  split; [reflexivity|]. split; [reflexivity|]. split; [reflexivity|].
  split; [simpl; lia|]. split; [simpl; lia|]. split; [exact Hrow|].
  apply (vec_poly_row_local PrimFloat.mul heap22 heap_row x22 x12 res25 res25 1 0);
    [reflexivity|reflexivity|reflexivity|simpl; lia|simpl; lia|exact Hrow].
Defined.

Lemma feature_cells_valid_witness :
  allocated heap_cells x22 = true ∧ allocated heap_cells test12 = true
  ∧ ncols test12 = ncols x22 ∧ nrows test12 ≤ 1
  ∧ ∃ trn_feat test_feat h',
      feature_cells 0%float PrimFloat.mul x22 test12 1 heap_cells
        = Done ((trn_feat, test_feat), h')
      ∧ trn_feat = mk_ndarray (data trn_feat) (nrows x22) (n_feat (ncols x22)) F_order
      ∧ test_feat = mk_ndarray (data test_feat) 1 (n_feat (ncols x22)) F_order
      ∧ heap_cells !! data trn_feat = None ∧ heap_cells !! data test_feat = None
      ∧ data trn_feat ≠ data test_feat
      ∧ (∀ l, is_Some (heap_cells !! l) → h' !! l = heap_cells !! l)
      ∧ (∀ k c, k < nrows x22 → c < n_feat (ncols x22) →
           entry h' trn_feat k c = expected PrimFloat.mul heap_cells x22 k c)
      ∧ (∀ k c, k < nrows test12 → c < n_feat (ncols x22) →
           entry h' test_feat k c = expected PrimFloat.mul heap_cells test12 k c)
      ∧ (∀ k c, nrows test12 ≤ k → k < 1 → c < n_feat (ncols x22) →
           entry h' test_feat k c = Some 0%float).
Proof.
  split; [reflexivity|]. split; [reflexivity|]. split; [reflexivity|].
  split; [simpl; lia|].
  apply (feature_cells_valid 0%float PrimFloat.mul heap_cells x22 test12 1);
    [reflexivity|reflexivity|reflexivity|simpl; lia].
Defined.

Lemma proc_numba_values_witness :
  backed heap_procs xx3 = true ∧ backed heap_procs yy3 = true
  ∧ 3 ≤ vlen xx3 ∧ 3 ≤ vlen yy3
  ∧ apart_or_same xx3 xx3 ∧ apart_or_same yy3 xx3
  ∧ ∃ h', proc_numba64 3 xx3 yy3 xx3 heap_procs = Done (xx3, h')
      ∧ ∀ j, j < 3 →
          ∃ x y, item heap_procs xx3 j = Some x ∧ item heap_procs yy3 j = Some y
            ∧ item h' xx3 j = Some (formula64 x y).
Proof.
  split; [reflexivity|]. split; [reflexivity|].
  split; [simpl; lia|]. split; [simpl; lia|].
  split; [right; reflexivity|]. split; [left; simpl; lia|].
  apply (proc_numba_values PrimFloat.add PrimFloat.sub PrimFloat.mul
           2%float 55%float 99%float point88_64 (λ e, e) 3
           heap_procs xx3 yy3 xx3);
    [reflexivity|reflexivity|reflexivity|simpl; lia|simpl; lia|simpl; lia
    |right; reflexivity|left; simpl; lia].
Defined.

Lemma proc_numba_frame_witness :
  backed heap_procs xx3 = true ∧ backed heap_procs yy3 = true
  ∧ backed heap_procs zz4 = true
  ∧ 3 ≤ vlen xx3 ∧ 3 ≤ vlen yy3 ∧ 3 ≤ vlen zz4
  ∧ apart_or_same xx3 zz4 ∧ apart_or_same yy3 zz4
  ∧ ∃ h', proc_numba64 3 xx3 yy3 zz4 heap_procs = Done (zz4, h')
      ∧ (∀ l, l ≠ vdata zz4 → h' !! l = heap_procs !! l)
      ∧ (∀ j, 3 ≤ j → item h' zz4 j = item heap_procs zz4 j).
Proof.
  split; [reflexivity|]. split; [reflexivity|]. split; [reflexivity|].
  split; [simpl; lia|]. split; [simpl; lia|]. split; [simpl; lia|].
  split; [left; simpl; lia|]. split; [left; simpl; lia|].
  apply (proc_numba_frame PrimFloat.add PrimFloat.sub PrimFloat.mul
           2%float 55%float 99%float point88_64 (λ e, e) 3
           heap_procs xx3 yy3 zz4);
    [reflexivity|reflexivity|reflexivity|simpl; lia|simpl; lia|simpl; lia
    |left; simpl; lia|left; simpl; lia].
Defined.

Lemma proc_python_values_witness :
  backed heap_procs xx3 = true ∧ backed heap_procs yy3 = true
  ∧ 2 ≤ vlen xx3 ∧ 2 ≤ vlen yy3
  ∧ ∃ zz h', proc_python64 2 xx3 yy3 heap_procs = Done (zz, h')
      ∧ zz = mk_view (vdata zz) 0 1 2
      ∧ heap_procs !! vdata zz = None
      ∧ (∀ l, is_Some (heap_procs !! l) → h' !! l = heap_procs !! l)
      ∧ length (items h' zz) = 2
      ∧ ∀ j, j < 2 →
          ∃ x y, item heap_procs xx3 j = Some x ∧ item heap_procs yy3 j = Some y
            ∧ item h' zz j = Some (to_float32 (formula64 x y)).
Proof.
  split; [reflexivity|]. split; [reflexivity|].
  split; [simpl; lia|]. split; [simpl; lia|].
  apply (proc_python_values PrimFloat.add PrimFloat.sub PrimFloat.mul
           2%float 55%float 99%float point88_64 0%float to_float32 2
           heap_procs xx3 yy3);
    [reflexivity|reflexivity|simpl; lia|simpl; lia].
Defined.

Lemma proc_python_completes_iff_witness :
  backed heap_procs xx3 = true ∧ backed heap_procs yy3 = true
  ∧ ((∃ zz h', proc_python64 4 xx3 yy3 heap_procs = Done (zz, h'))
       ↔ 4 ≤ vlen xx3 ∧ 4 ≤ vlen yy3)
  ∧ (proc_python64 4 xx3 yy3 heap_procs = OutOfBounds
       ↔ vlen xx3 < 4 ∨ vlen yy3 < 4).
Proof.
  split; [reflexivity|]. split; [reflexivity|].
  apply (proc_python_completes_iff PrimFloat.add PrimFloat.sub PrimFloat.mul
           2%float 55%float 99%float point88_64 0%float to_float32 4
           heap_procs xx3 yy3); reflexivity.
Defined.

Lemma proc_numba_in_shape_iff_witness :
  backed heap_procs xx3 = true ∧ backed heap_procs yy3 = true
  ∧ backed heap_procs zz4 = true
  ∧ apart_or_same xx3 zz4 ∧ apart_or_same yy3 zz4
  ∧ (in_shape (proc_numba64 4 xx3 yy3 zz4) heap_procs
       ↔ 4 ≤ vlen xx3 ∧ 4 ≤ vlen yy3 ∧ 4 ≤ vlen zz4).
Proof.
  split; [reflexivity|]. split; [reflexivity|]. split; [reflexivity|].
  split; [left; simpl; lia|]. split; [left; simpl; lia|].
  apply (proc_numba_in_shape_iff PrimFloat.add PrimFloat.sub PrimFloat.mul
           2%float 55%float 99%float point88_64 (λ e, e) 4
           heap_procs xx3 yy3 zz4);
    [reflexivity|reflexivity|reflexivity|left; simpl; lia|left; simpl; lia].
Defined.

(** The conversion to [float32] rounds to the nearest, ties to even, and
    overflows to infinity. *)
Example to_float32_rounds : to_float32 0.5%float = 0.5%float
  ∧ to_float32 0x1.999999999999ap-4%float = 0x1.99999ap-4%float
  ∧ to_float32 16777217%float = 16777216%float
  ∧ to_float32 16777219%float = 16777220%float
  ∧ to_float32 0x1.ffffffp127%float = infinity.
Proof. repeat split; vm_compute; reflexivity. Qed.

(** [proc_python] on three elements: the binary64 values of the formula,
    rounded to [float32]. *)
Example proc_python_rounds :
  (λ r, items r.2 r.1) <$>
    (match proc_python64 3 xx3 yy3 heap_procs with
     | Done r => Some r
     | OutOfBounds => None
     end)
  = Some (Some <$> [0x1.a7f286p16; 0x1.6eef06p17; 0x1.1a1264p18]%float).
Proof. vm_compute. reflexivity. Qed.

(** The loops on three elements: in place, and into a new array. *)
Example proc_numba_in_place :
  (λ r, items r.2 r.1) <$>
    (match proc_numba64 3 xx3 yy3 xx3 heap_procs with
     | Done r => Some r
     | OutOfBounds => None
     end)
  = Some (Some <$> [formula64 1 4; formula64 2 5; formula64 3 6]%float).
Proof. vm_compute. reflexivity. Qed.

Example proc_python_short_input :
  proc_python64 4 xx3 yy3 heap_procs = OutOfBounds.
Proof. vm_compute. reflexivity. Qed.
